(** * SC.ObjectProxy (lib/core.js): a shallow embedding

    The proxy forwards reads and writes of undeclared keys to its
    [observableContent], the single target resolved from [content].

    JavaScript objects are mutable and shared, so the embedding threads an
    explicit store: a heap of data objects, the table of proxy instances,
    the one [SC.Set] that [SC.Object.extend] puts on the prototype, and a
    trace of the calls made to collaborators. *)

From Stdlib Require Import ZArith String List Bool Lia.
From stdpp Require Import base option gmap strings list fin_maps.
Import ListNotations.

Local Open Scope string_scope.

(** ** Values *)

Definition loc := nat.
Definition guid := nat.

(** JavaScript values. Numbers are the integers (array lengths are the only
    numbers the proxy inspects); objects and arrays are references. *)
Inductive value :=
| VUndefined
| VNull
| VBool (b : bool)
| VNum (n : Z)
| VStr (s : string)
| VRef (l : loc).

#[global] Instance value_eq_dec : EqDecision value.
Proof. solve_decision. Defined.

(** [a === b] *)
Definition strict_eq (a b : value) : bool := bool_decide (a = b).

(** ToBoolean, as used by [if (content && ...)] and [!allowsMultiple]. *)
Definition truthy (v : value) : bool :=
  match v with
  | VUndefined | VNull => false
  | VBool b => b
  | VNum n => negb (n =? 0)%Z
  | VStr s => negb (String.eqb s "")
  | VRef _ => true
  end.

(** [SC.none(v)]: null or undefined. *)
Definition SC_none (v : value) : bool :=
  match v with
  | VUndefined | VNull => true
  | _ => false
  end.

(** ** Heap objects *)

(** A data object: its own properties, the ordered elements when it has the
    collection capability, and whether it has a callable [destroy] member. *)
Record object := Object {
  props : gmap string value;
  elems : option (list value);
  destroyable : bool
}.

Definition plain (ps : gmap string value) : object := Object ps None false.
Definition array (es : list value) : object := Object ∅ (Some es) false.

(** [firstObject] of a sequence; undefined when it is empty. *)
Definition firstObject (es : list value) : value := hd VUndefined es.

(** [uniq()]: the distinct values in order of first occurrence, compared
    with [===]. *)
Fixpoint uniq_into (seen l : list value) : list value :=
  match l with
  | [] => seen
  | x :: l' =>
      if bool_decide (x ∈ seen) then uniq_into seen l'
      else uniq_into (seen ++ [x]) l'
  end.

Definition uniq (l : list value) : list value := uniq_into [] l.

(** Modelled from the spec: the observable attribute store's [get(obj, key)]
    on a heap object. A collection reports [isEnumerable], [length] and
    [firstObject] from its elements; every other key is an own property,
    undefined when absent. *)
Definition obj_get (o : object) (k : string) : value :=
  let own := default VUndefined (props o !! k) in
  match elems o with
  | Some es =>
      if String.eqb k "isEnumerable" then VBool true
      else if String.eqb k "length" then VNum (Z.of_nat (length es))
      else if String.eqb k "firstObject" then firstObject es
      else own
  | None => own
  end.

(** Modelled from the spec: [set(obj, key, value)] on a heap object stores an
    own property. *)
Definition obj_set (o : object) (k : string) (v : value) : object :=
  Object (<[k := v]> (props o)) (elems o) (destroyable o).

(** Modelled from the spec: [get(v, key)] on a value that is not a heap
    object (a primitive, null, undefined) is left to the framework; all that
    is assumed is that no such value reports [isEnumerable === true]. *)
Class Runtime := {
  prim_get : value → string → value;
  prim_not_enumerable : ∀ v, prim_get v "isEnumerable" ≠ VBool true
}.

(** The run time in which primitives answer undefined to every key. *)
Definition bare_runtime : Runtime.
Proof. refine {| prim_get := fun _ _ => VUndefined |}. intros v; discriminate. Defined.

(** The run time in which a string answers its [length] and every other
    key of a primitive is undefined. *)
Definition js_runtime : Runtime.
Proof.
  refine {| prim_get := fun v k =>
              match v with
              | VStr s =>
                  if String.eqb k "length"
                  then VNum (Z.of_nat (String.length s))
                  else VUndefined
              | _ => VUndefined
              end |}.
  intros v. destruct v; discriminate.
Defined.

(** ** Proxy instances and the store *)

(** An instance of SC.ObjectProxy: the three stored attributes, the keys for
    which [SC.defineProperty] was called on it (one entry per call), and the
    memo of its cacheable computed properties. *)
Record proxy := Proxy {
  content : value;
  allowsMultipleContent : value;
  isEditable : value;
  accessors : list string;
  cache : gmap string value
}.

(** [SC.ObjectProxy.create()]: the defaults of lines 68, 82 and 101. *)
Definition new_proxy : proxy := Proxy VNull (VBool false) (VBool true) [] ∅.

#[global] Instance proxy_inhabited : Inhabited proxy := populate new_proxy.

(** Calls that act on a collaborator: [content.destroy()],
    [this.notifyPropertyChange(key)], [set(target, key, value)] and
    [target.setEach(key, value)]. *)
Inductive event :=
| Destroyed (l : loc)
| Notified (self : guid) (key : string)
| SetCalled (target : value) (key : string) (v : value)
| SetEachCalled (target : value) (key : string) (v : value).

#[global] Instance event_eq_dec : EqDecision event.
Proof. solve_decision. Defined.

(** The store. [_proxiedProperties] is the [new SC.Set()] of line 212: the
    expression is evaluated once, when the class is defined, and the set
    sits on the prototype, so it is a field of the store and not of
    [proxy]. *)
Record world := World {
  heap : gmap loc object;
  proxies : gmap guid proxy;
  _proxiedProperties : list string;
  trace : list event
}.

(** The receiver; an instance never touched before is a newly created
    one. *)
Definition this (w : world) (self : guid) : proxy := proxies w !!! self.

Definition with_heap (h : gmap loc object) (w : world) : world :=
  World h (proxies w) (_proxiedProperties w) (trace w).

Definition with_this (self : guid) (p : proxy) (w : world) : world :=
  World (heap w) (<[self := p]> (proxies w)) (_proxiedProperties w) (trace w).

Definition with_registry (s : list string) (w : world) : world :=
  World (heap w) (proxies w) s (trace w).

Definition emit (e : event) (w : world) : world :=
  World (heap w) (proxies w) (_proxiedProperties w) (trace w ++ [e]).

Definition with_cache (c : gmap string value) (p : proxy) : proxy :=
  Proxy (content p) (allowsMultipleContent p) (isEditable p) (accessors p) c.

Definition with_accessors (ks : list string) (p : proxy) : proxy :=
  Proxy (content p) (allowsMultipleContent p) (isEditable p) ks (cache p).

(** Memoize [v] as the value of the computed property [key] of [self]. *)
Definition memoize (self : guid) (key : string) (v : value) (w : world) : world :=
  let p := this w self in
  with_this self (with_cache (<[key := v]> (cache p)) p) w.

(** ** Exceptions and the state monad *)

Inductive error :=
| NotEditable (self : guid) (key : string)
| TypeError.

Inductive outcome (A : Type) :=
| Ok (a : A)
| Throw (e : error).
Arguments Ok {A} a.
Arguments Throw {A} e.

Definition M (A : Type) : Type := world → outcome A * world.

Definition ret {A} (a : A) : M A := fun w => (Ok a, w).

Definition throw {A} (e : error) : M A := fun w => (Throw e, w).

Definition bind {A B} (m : M A) (f : A → M B) : M B := fun w =>
  match m w with
  | (Ok a, w') => f a w'
  | (Throw e, w') => (Throw e, w')
  end.

Definition gets {A} (f : world → A) : M A := fun w => (Ok (f w), w).

Definition modify (f : world → world) : M unit := fun w => (Ok tt, f w).

Declare Scope js_scope.
Delimit Scope js_scope with js.
Notation "x <~ m ;; k" := (bind m (fun x => k))
  (at level 100, m at next level, right associativity) : js_scope.
Notation "m ;;; k" := (bind m (fun _ => k))
  (at level 100, right associativity) : js_scope.
Open Scope js_scope.

Section Proxy.
Context {RT : Runtime}.

(** [SC.get] over any value. *)
Definition SC_get (h : gmap loc object) (v : value) (k : string) : value :=
  match v with
  | VRef l =>
      match h !! l with
      | Some o => obj_get o k
      | None => VUndefined
      end
  | _ => prim_get v k
  end.

(** [SC.set] over any value: only heap objects hold properties. *)
Definition SC_set (h : gmap loc object) (v : value) (k : string) (x : value)
  : gmap loc object :=
  match v with
  | VRef l =>
      match h !! l with
      | Some o => <[l := obj_set o k x]> h
      | None => h
      end
  | _ => h
  end.

(** core.js, lines 10-12. *)
Definition SC_isEnumerable (h : gmap loc object) (content : value) : bool :=
  strict_eq (SC_get h content "isEnumerable") (VBool true).

(** Modelled from the spec: the destroy capability,
    [SC.typeOf(content.destroy) === 'function']; only heap objects carry a
    [destroy] member. *)
Definition has_destroy (h : gmap loc object) (v : value) : bool :=
  match v with
  | VRef l =>
      match h !! l with
      | Some o => destroyable o
      | None => false
      end
  | _ => false
  end.

(** ** The collection capability *)

Definition elements (h : gmap loc object) (v : value) : option (list value) :=
  match v with
  | VRef l => h !! l ≫= elems
  | _ => None
  end.

(** Modelled from the spec: [getEach(key)], the ordered sequence of
    [get(x, key)] over the elements. Calling it on a value without the
    capability is a TypeError. *)
Definition getEach (c : value) (key : string) : M (list value) := fun w =>
  match elements (heap w) c with
  | Some es => (Ok (map (fun x => SC_get (heap w) x key) es), w)
  | None => (Throw TypeError, w)
  end.

(** Modelled from the spec: [setEach(key, value)], [set(x, key, value)] on
    each element in order. *)
Definition setEach (c : value) (key : string) (v : value) : M unit := fun w =>
  match elements (heap w) c with
  | Some es =>
      (Ok tt,
       emit (SetEachCalled c key v)
         (with_heap (fold_left (fun h x => SC_set h x key v) es (heap w)) w))
  | None => (Throw TypeError, w)
  end.

(** The call [set(target, key, value)]: recorded, and performed on the
    heap. *)
Definition set_call (target : value) (key : string) (v : value) : M unit :=
  modify (fun w =>
    emit (SetCalled target key v)
      (with_heap (SC_set (heap w) target key v) w)).

(** The array of gathered values, allocated when it is the result of a
    read. *)
Definition new_array (vs : list value) : M value := fun w =>
  let l := fresh (dom (heap w)) in
  (Ok (VRef l), with_heap (<[l := array vs]> (heap w)) w).

(** ** Computed properties *)

(** Modelled from the spec: a cacheable computed property recomputes on a
    read only when it has no memoized value, and memoizes the result. What
    is memoized is dropped when [content] or [allowsMultipleContent] is
    written and by [notifyPropertyChange]; observers the framework may put
    on the properties of the target itself are not part of the model. *)
Definition cacheable (self : guid) (key : string) (compute : M value) : M value :=
  fun w =>
    match cache (this w self) !! key with
    | Some v => (Ok v, w)
    | None =>
        match compute w with
        | (Ok v, w') => (Ok v, memoize self key v w')
        | (Throw e, w') => (Throw e, w')
        end
    end.

(** core.js, lines 116-136: the function under [observableContent]. *)
Definition observableContent (h : gmap loc object) (p : proxy) : value :=
  let content0 := content p in
  if truthy content0 && SC_isEnumerable h content0 then
    let len := SC_get h content0 "length" in
    let allowsMultiple := allowsMultipleContent p in
    let content1 :=
      if strict_eq len (VNum 1) then SC_get h content0 "firstObject"
      else if strict_eq len (VNum 0) || negb (truthy allowsMultiple) then VNull
      else content0 in
    if truthy content1 && negb (truthy allowsMultiple)
       && SC_isEnumerable h content1
    then VNull else content1
  else content0.

(** [get(this, 'observableContent')] *)
Definition get_observableContent (self : guid) : M value :=
  cacheable self "observableContent"
    (gets (fun w => observableContent (heap w) (this w self))).

(** core.js, lines 171-199: the function of the accessor installed for
    [key]; [v] is undefined on a read. *)
Definition forwarder (self : guid) (key : string) (v : value) : M value :=
  content0 <~ get_observableContent self ;;
  if strict_eq content0 VNull || strict_eq content0 VUndefined
  then ret VUndefined
  else if strict_eq v VUndefined then
    enum <~ gets (fun w => SC_isEnumerable (heap w) content0) ;;
    if (enum : bool) then
      vs <~ getEach content0 key ;;
      if strict_eq (VNum (Z.of_nat (length vs))) (VNum 0) then ret VUndefined
      else if strict_eq (VNum (Z.of_nat (length (uniq vs)))) (VNum 1)
      then ret (firstObject vs)
      else new_array vs
    else gets (fun w => SC_get (heap w) content0 key)
  else
    editable <~ gets (fun w => isEditable (this w self)) ;;
    if negb (truthy editable) then throw (NotEditable self key)
    else
      enum <~ gets (fun w => SC_isEnumerable (heap w) content0) ;;
      if (enum : bool) then setEach content0 key v ;;; ret v
      else set_call content0 key v ;;; ret v.

(** Modelled from the spec: a read of a key that has an accessor. *)
Definition get_forwarded (self : guid) (key : string) : M value :=
  cacheable self key (forwarder self key VUndefined).

(** Modelled from the spec: a write of a key that has an accessor runs the
    accessor with the value and memoizes what it returns. *)
Definition set_forwarded (self : guid) (key : string) (v : value) : M value :=
  r <~ forwarder self key v ;;
  modify (memoize self key r) ;;;
  ret r.

(** Modelled from the spec: [SC.Set.add], a set kept in insertion order. *)
Definition Set_add (key : string) (s : list string) : list string :=
  if bool_decide (key ∈ s) then s else s ++ [key].

(** Modelled from the spec: [SC.defineProperty(this, key, ...)] records that
    [key] now has the accessor [forwarder] on this instance. *)
Definition defineProperty (self : guid) (key : string) : M unit :=
  modify (fun w =>
    let p := this w self in
    with_this self (with_accessors (accessors p ++ [key]) p) w).

(** core.js, lines 169-201. The second parameter is not used by the body:
    the accessor is installed and then read. *)
Definition unknownProperty (self : guid) (key : string) (v : value) : M value :=
  modify (fun w => with_registry (Set_add key (_proxiedProperties w)) w) ;;;
  defineProperty self key ;;;
  get_forwarded self key.

(** Modelled from the spec: [this.notifyPropertyChange(key)] drops the
    memoized value of [key] and announces the change. *)
Definition notifyPropertyChange (self : guid) (key : string) (w : world) : world :=
  let p := this w self in
  emit (Notified self key) (with_this self (with_cache (delete key (cache p)) p) w).

(** core.js, lines 205-209. *)
Definition contentDidChange (self : guid) (w : world) : world :=
  fold_left (fun w key => notifyPropertyChange self key w)
    (_proxiedProperties w) w.

(** Members declared by the class. The last four hold functions or the
    registry, which are not values here: [proxy_get] and [proxy_set] are for
    the other keys. *)
Definition declared : list string :=
  ["content"; "allowsMultipleContent"; "hasContent"; "isEditable";
   "observableContent"; "destroy"; "unknownProperty"; "contentDidChange";
   "_proxiedProperties"].

Definition forwardable (key : string) : Prop := key ∉ declared.

(** Modelled from the spec: [set(this, 'content', v)] stores the attribute,
    drops what is memoized (every cacheable property of the proxy depends on
    [content], directly or through [observableContent]) and runs the
    observer of [content]. *)
Definition set_content (self : guid) (v : value) (w : world) : world :=
  let p := this w self in
  contentDidChange self
    (with_this self
       (Proxy v (allowsMultipleContent p) (isEditable p) (accessors p) ∅) w).

Definition set_allowsMultipleContent (self : guid) (v : value) (w : world) : world :=
  let p := this w self in
  with_this self (Proxy (content p) v (isEditable p) (accessors p) ∅) w.

Definition set_isEditable (self : guid) (v : value) (w : world) : world :=
  let p := this w self in
  with_this self
    (Proxy (content p) (allowsMultipleContent p) v (accessors p) (cache p)) w.

(** core.js, lines 92-94. *)
Definition hasContent (self : guid) : M value :=
  c <~ get_observableContent self ;;
  ret (VBool (negb (SC_none c))).

(** Modelled from the spec: [get(proxy, key)]. *)
Definition proxy_get (self : guid) (key : string) : M value :=
  if String.eqb key "content" then gets (fun w => content (this w self))
  else if String.eqb key "allowsMultipleContent"
  then gets (fun w => allowsMultipleContent (this w self))
  else if String.eqb key "isEditable" then gets (fun w => isEditable (this w self))
  else if String.eqb key "hasContent" then hasContent self
  else if String.eqb key "observableContent" then get_observableContent self
  else
    known <~ gets (fun w => bool_decide (key ∈ accessors (this w self))) ;;
    if (known : bool) then get_forwarded self key
    else unknownProperty self key VUndefined.

(** Modelled from the spec: [set(proxy, key, v)]. The two derived properties
    ignore the value written. *)
Definition proxy_set (self : guid) (key : string) (v : value) : M value :=
  if String.eqb key "content" then modify (set_content self v) ;;; ret v
  else if String.eqb key "allowsMultipleContent"
  then modify (set_allowsMultipleContent self v) ;;; ret v
  else if String.eqb key "isEditable" then modify (set_isEditable self v) ;;; ret v
  else if String.eqb key "hasContent" then hasContent self
  else if String.eqb key "observableContent" then get_observableContent self
  else
    known <~ gets (fun w => bool_decide (key ∈ accessors (this w self))) ;;
    if (known : bool) then set_forwarded self key v
    else unknownProperty self key v.

(** core.js, lines 150-157. *)
Definition destroy (self : guid) : M guid :=
  content0 <~ get_observableContent self ;;
  callable <~ gets (fun w => has_destroy (heap w) content0) ;;
  (if truthy content0 && callable
   then match content0 with
        | VRef l => modify (emit (Destroyed l))
        | _ => ret tt
        end
   else ret tt) ;;;
  modify (set_content self VNull) ;;;
  ret self.

(** ** Vocabulary of the statements *)

(** What [get(this, 'observableContent')] yields in [w]: the memoized value
    when there is one, the function's result otherwise. *)
Definition observableContent_of (w : world) (self : guid) : value :=
  match cache (this w self) !! "observableContent" with
  | Some v => v
  | None => observableContent (heap w) (this w self)
  end.

(** The store after [get(this, 'observableContent')]. *)
Definition memo_observableContent (self : guid) (w : world) : world :=
  match cache (this w self) !! "observableContent" with
  | Some _ => w
  | None =>
      memoize self "observableContent"
        (observableContent (heap w) (this w self)) w
  end.

(** The store after the first two statements of [unknownProperty]. *)
Definition install (self : guid) (key : string) (w : world) : world :=
  let w1 := with_registry (Set_add key (_proxiedProperties w)) w in
  let p := this w1 self in
  with_this self (with_accessors (accessors p ++ [key]) p) w1.

(** The values [getEach(key)] gathers from the elements [es]. *)
Definition gathered (h : gmap loc object) (es : list value) (key : string)
  : list value :=
  map (fun x => SC_get h x key) es.

End Proxy.

(** The targets whose [destroy] was invoked, in order. *)
Definition destroy_calls (t : list event) : list loc :=
  omap (fun e => match e with Destroyed l => Some l | _ => None end) t.

(** Two stores that differ at most in what the proxy [self] has memoized. *)
Definition same_up_to_memo (self : guid) (w w' : world) : Prop :=
  heap w' = heap w ∧
  _proxiedProperties w' = _proxiedProperties w ∧
  trace w' = trace w ∧
  (∀ q, q ≠ self → this w' q = this w q) ∧
  content (this w' self) = content (this w self) ∧
  allowsMultipleContent (this w' self) = allowsMultipleContent (this w self) ∧
  isEditable (this w' self) = isEditable (this w self) ∧
  accessors (this w' self) = accessors (this w self).

(** Two stores in which every proxy has the same three attributes. *)
Definition same_attributes (w w' : world) : Prop :=
  ∀ q, content (this w' q) = content (this w q) ∧
       allowsMultipleContent (this w' q) = allowsMultipleContent (this w q) ∧
       isEditable (this w' q) = isEditable (this w q).

(** Two stores with the same registry and the same accessors on every
    proxy, and the computations that keep both. *)
Definition stable (w w' : world) : Prop :=
  _proxiedProperties w' = _proxiedProperties w ∧
  ∀ q, accessors (this w' q) = accessors (this w q).

Definition keeps {A} (m : M A) : Prop := ∀ w, stable w (snd (m w)).

(** On every proxy each key has at most one accessor, and every key with an
    accessor is in the registry. *)
Definition registered (w : world) : Prop :=
  ∀ q, NoDup (accessors (this w q)) ∧
       ∀ k, k ∈ accessors (this w q) → k ∈ _proxiedProperties w.

(** [w'] has the trace and the attributes of [w] and holds every object of
    [w] as it was; it may hold new objects and other memoized values,
    accessors and registry entries. *)
Definition extends (w w' : world) : Prop :=
  trace w' = trace w ∧
  same_attributes w w' ∧
  ∀ l o, heap w !! l = Some o → heap w' !! l = Some o.

(** Computations that only extend the store and never raise the
    editability error. *)
Definition quiet {A} (m : M A) : Prop :=
  ∀ w, extends w (snd (m w)) ∧ ∀ q k, fst (m w) ≠ Throw (NotEditable q k).

(** What the accessor returns on a read, from the heap and the target
    alone. *)
Definition read_result {RT : Runtime} (h : gmap loc object) (t : value)
    (key : string) : outcome value :=
  if SC_none t then Ok VUndefined
  else if SC_isEnumerable h t then
    match elements h t with
    | Some es =>
        match gathered h es key with
        | [] => Ok VUndefined
        | x :: _ =>
            if bool_decide (length (uniq (gathered h es key)) = 1) then Ok x
            else Ok (VRef (fresh (dom h)))
        end
    | None => Throw TypeError
    end
  else Ok (SC_get h t key).

(** ** Sample stores *)

(** No object, no instance touched yet, an empty registry. *)
Definition empty_world : world := World ∅ ∅ [] [].

(** Three records with a [status], a record with a [name] and a [destroy]
    member, and arrays over them; array 6 holds array 4 as its only
    element, array 9 holds record 8; record 10 has another [name]. *)
Definition sample_heap : gmap loc object :=
  {[ 1 := plain {[ "status" := VStr "ok" ]};
     2 := plain {[ "status" := VStr "ok" ]};
     3 := plain {[ "status" := VStr "fail" ]};
     4 := array [VRef 1; VRef 2];
     5 := array [VRef 1; VRef 2; VRef 3];
     6 := array [VRef 4];
     7 := array [];
     8 := Object {[ "name" := VStr "Ann" ]} None true;
     9 := array [VRef 8];
     10 := plain {[ "name" := VStr "Bea" ]} ]}.

(** One proxy, number 1, holding [c]. *)
Definition sample_world (c : value) (multiple editable : bool) : world :=
  World sample_heap {[ 1 := Proxy c (VBool multiple) (VBool editable) [] ∅ ]} [] [].

(** The proxy of [sample_world] after [name] and [status] were read once
    and what was memoized for them was dropped again. *)
Definition forwarding_world (c : value) (multiple editable : bool) : world :=
  World sample_heap
    {[ 1 := Proxy c (VBool multiple) (VBool editable) ["name"; "status"] ∅ ]}
    ["name"; "status"] [].

(** A new proxy made read-only, then read at [name]: it has no content. *)
Definition locked_world : world :=
  snd (proxy_get (RT := bare_runtime) 1 "name"
         (set_isEditable 1 (VBool false) empty_world)).

(** Proxy 1 manages the two records of array 4 at once, proxy 2 manages
    record 2 alone. *)
Definition shared_world : world :=
  World sample_heap
    {[ 1 := Proxy (VRef 4) (VBool true) (VBool true) [] ∅;
       2 := Proxy (VRef 2) (VBool false) (VBool true) [] ∅ ]} [] [].

(** [status] is read through proxy 1, then the [status] of record 2 is
    changed through proxy 2. *)
Definition stale_world : world :=
  snd (proxy_set (RT := bare_runtime) 2 "status" (VStr "fail")
         (snd (proxy_get (RT := bare_runtime) 2 "status"
                 (snd (proxy_get (RT := bare_runtime) 1 "status"
                         shared_world))))).

(** A new proxy read at [name]: it has no content. *)
Definition idle_world : world :=
  snd (proxy_get (RT := bare_runtime) 1 "name" empty_world).

(** * Properties *)

Section Properties.
Context {RT : Runtime}.

(** ** Strict equality and truthiness *)

Lemma strict_eq_true a b : strict_eq a b = true ↔ a = b.
Proof. unfold strict_eq. apply bool_decide_eq_true. Qed.

Lemma strict_eq_false a b : strict_eq a b = false ↔ a ≠ b.
Proof. unfold strict_eq. apply bool_decide_eq_false. Qed.

Lemma strict_eq_refl a : strict_eq a a = true.
Proof. by apply strict_eq_true. Qed.

Lemma SC_none_strict v :
  strict_eq v VNull || strict_eq v VUndefined = SC_none v.
Proof. by destruct v. Qed.

Lemma SC_none_falsy v : SC_none v = true → truthy v = false.
Proof. by destruct v. Qed.

(** Only references to heap objects are collections. *)
Lemma isEnumerable_ref h v :
  SC_isEnumerable h v = true →
  ∃ l o, v = VRef l ∧ h !! l = Some o ∧ obj_get o "isEnumerable" = VBool true.
Proof.
  unfold SC_isEnumerable. rewrite strict_eq_true.
  destruct v as [| | b | n | s | l]; simpl;
    try (intros E; by apply prim_not_enumerable in E).
  destruct (h !! l) as [o|] eqn:Hl; [|discriminate].
  intros E. by exists l, o.
Qed.

Lemma isEnumerable_truthy h v : SC_isEnumerable h v = true → truthy v = true.
Proof. intros (l & o & -> & _)%isEnumerable_ref. done. Qed.

Lemma falsy_not_enumerable h v : truthy v = false → SC_isEnumerable h v = false.
Proof.
  intros Hf. destruct (SC_isEnumerable h v) eqn:E; [|done].
  apply isEnumerable_truthy in E. congruence.
Qed.

Lemma elements_isEnumerable h v es :
  elements h v = Some es → SC_isEnumerable h v = true.
Proof.
  destruct v; try discriminate. simpl.
  destruct (h !! l) as [o|] eqn:Hl; [|discriminate]. simpl. intros He.
  unfold SC_isEnumerable, SC_get, obj_get. rewrite Hl, He. done.
Qed.

(** ** The content resolver *)

Lemma observableContent_not_collection h p :
  SC_isEnumerable h (content p) = false → observableContent h p = content p.
Proof.
  intros E. unfold observableContent. rewrite E, andb_false_r. done.
Qed.

Lemma observableContent_collection h p :
  SC_isEnumerable h (content p) = true →
  observableContent h p =
    let allowsMultiple := truthy (allowsMultipleContent p) in
    let len := SC_get h (content p) "length" in
    let c :=
      if strict_eq len (VNum 1) then SC_get h (content p) "firstObject"
      else if strict_eq len (VNum 0) || negb allowsMultiple then VNull
      else content p in
    if negb allowsMultiple && SC_isEnumerable h c then VNull else c.
Proof.
  intros E. unfold observableContent.
  rewrite E, (isEnumerable_truthy _ _ E). cbn [andb].
  set (c := if strict_eq _ (VNum 1) then _ else _).
  destruct (SC_isEnumerable h c) eqn:Ec.
  - rewrite (isEnumerable_truthy _ _ Ec). by rewrite !andb_true_r.
  - by rewrite !andb_false_r.
Qed.

(** C1. The resolver: content that is not a collection is returned
    unchanged; a collection of length 0 resolves to null; a collection of
    length above 1 resolves to null when allowsMultipleContent is false and
    to itself when it is true; a collection whose unwrapped sole element is
    again a collection resolves to null when allowsMultipleContent is
    false. *)
Theorem observableContent_resolves (h : gmap loc object) (c e : value)
    (b : bool) (ks : list string) (memo : gmap string value) :
  let p := Proxy c (VBool b) e ks memo in
  (SC_isEnumerable h c = false → observableContent h p = c) ∧
  (SC_isEnumerable h c = true → SC_get h c "length" = VNum 0 →
     observableContent h p = VNull) ∧
  (∀ n, SC_isEnumerable h c = true → SC_get h c "length" = VNum n → (1 < n)%Z →
     observableContent h p = if b then c else VNull) ∧
  (SC_isEnumerable h c = true → SC_get h c "length" = VNum 1 → b = false →
     SC_isEnumerable h (SC_get h c "firstObject") = true →
     observableContent h p = VNull).
Proof.
  intros p. repeat split.
  - apply (observableContent_not_collection h p).
  - intros E Hlen. rewrite (observableContent_collection h p E). simpl.
    rewrite Hlen. simpl.
    by rewrite (falsy_not_enumerable h VNull), andb_false_r.
  - intros n E Hlen Hn. rewrite (observableContent_collection h p E). simpl.
    rewrite Hlen.
    assert (strict_eq (VNum n) (VNum 1) = false) as ->
      by (apply strict_eq_false; intros [=]; lia).
    assert (strict_eq (VNum n) (VNum 0) = false) as ->
      by (apply strict_eq_false; intros [=]; lia).
    destruct b; simpl; [done|].
    by rewrite (falsy_not_enumerable h VNull).
  - intros E Hlen -> E1. rewrite (observableContent_collection h p E). simpl.
    rewrite Hlen. simpl. by rewrite E1.
Qed.

(** C5, as the code has it. For a collection of length exactly 1 the
    resolver yields the sole element, except that it yields null when
    allowsMultipleContent is false and the sole element is itself a
    collection. *)
Theorem observableContent_single (h : gmap loc object) (c e : value)
    (b : bool) (ks : list string) (memo : gmap string value) :
  SC_isEnumerable h c = true →
  SC_get h c "length" = VNum 1 →
  observableContent h (Proxy c (VBool b) e ks memo) =
    if negb b && SC_isEnumerable h (SC_get h c "firstObject") then VNull
    else SC_get h c "firstObject".
Proof.
  intros E Hlen.
  rewrite (observableContent_collection h (Proxy c (VBool b) e ks memo) E).
  simpl. by rewrite Hlen.
Qed.

(** ** The store *)

Lemma this_with_this self p w : this (with_this self p w) self = p.
Proof. unfold this, with_this. simpl. apply lookup_total_insert_eq. Qed.

Lemma this_with_this_ne self q p w :
  q ≠ self → this (with_this self p w) q = this w q.
Proof. intros Hq. unfold this, with_this. simpl. by apply lookup_total_insert_ne. Qed.

Lemma same_up_to_memo_refl self w : same_up_to_memo self w w.
Proof. by repeat split. Qed.

Lemma same_up_to_memo_trans self w1 w2 w3 :
  same_up_to_memo self w1 w2 → same_up_to_memo self w2 w3 →
  same_up_to_memo self w1 w3.
Proof.
  intros (?&?&?&Hq&?&?&?&?) (?&?&?&Hq'&?&?&?&?).
  repeat split; try congruence.
  intros q Hne. rewrite Hq', Hq by done. done.
Qed.

Lemma same_up_to_memo_cache self w c :
  same_up_to_memo self w (with_this self (with_cache c (this w self)) w).
Proof.
  repeat split; try done; rewrite ?this_with_this; try done.
  intros q Hq. by apply this_with_this_ne.
Qed.

Lemma memoize_same self key v w : same_up_to_memo self w (memoize self key v w).
Proof. apply same_up_to_memo_cache. Qed.

Lemma memoize_hit self key v w : cache (this (memoize self key v w) self) !! key = Some v.
Proof. unfold memoize. rewrite this_with_this. simpl. apply lookup_insert_eq. Qed.

Lemma memoize_other self key v w k :
  k ≠ key → cache (this (memoize self key v w) self) !! k = cache (this w self) !! k.
Proof.
  intros Hk. unfold memoize. rewrite this_with_this. simpl.
  by rewrite lookup_insert_ne.
Qed.

Lemma memo_observableContent_same self w :
  same_up_to_memo self w (memo_observableContent self w).
Proof.
  unfold memo_observableContent.
  destruct (cache (this w self) !! "observableContent").
  - apply same_up_to_memo_refl.
  - apply same_up_to_memo_cache.
Qed.

Lemma memo_observableContent_cache self w key :
  key ≠ "observableContent" →
  cache (this (memo_observableContent self w) self) !! key
  = cache (this w self) !! key.
Proof.
  intros Hk. unfold memo_observableContent.
  destruct (cache (this w self) !! "observableContent"); [done|].
  by apply memoize_other.
Qed.

Lemma memo_observableContent_hit self w :
  cache (this (memo_observableContent self w) self) !! "observableContent"
  = Some (observableContent_of w self).
Proof.
  unfold memo_observableContent, observableContent_of.
  destruct (cache (this w self) !! "observableContent") eqn:E; [done|].
  apply memoize_hit.
Qed.

Lemma observableContent_of_memo self w :
  observableContent_of (memo_observableContent self w) self
  = observableContent_of w self.
Proof.
  unfold observableContent_of at 1. by rewrite memo_observableContent_hit.
Qed.

Lemma get_observableContent_eq self w :
  get_observableContent self w
  = (Ok (observableContent_of w self), memo_observableContent self w).
Proof.
  unfold get_observableContent, cacheable, observableContent_of,
    memo_observableContent, gets.
  by destruct (cache (this w self) !! "observableContent").
Qed.

(** ** The accessor, case by case *)

Lemma forwarder_absent self key v w :
  SC_none (observableContent_of w self) = true →
  forwarder self key v w = (Ok VUndefined, memo_observableContent self w).
Proof.
  intros Hn. unfold forwarder, bind. rewrite get_observableContent_eq.
  by rewrite SC_none_strict, Hn.
Qed.

Lemma forwarder_read_scalar self key w :
  SC_none (observableContent_of w self) = false →
  SC_isEnumerable (heap w) (observableContent_of w self) = false →
  forwarder self key VUndefined w
  = (Ok (SC_get (heap w) (observableContent_of w self) key),
     memo_observableContent self w).
Proof.
  intros Hn He. unfold forwarder, bind. rewrite get_observableContent_eq.
  rewrite SC_none_strict, Hn. simpl.
  destruct (memo_observableContent_same self w) as (Hh & _).
  unfold gets. rewrite Hh, He. simpl. by rewrite Hh.
Qed.

Lemma forwarder_read_collection self key w es :
  elements (heap w) (observableContent_of w self) = Some es →
  forwarder self key VUndefined w
  = let vs := gathered (heap w) es key in
    let w1 := memo_observableContent self w in
    match vs with
    | [] => (Ok VUndefined, w1)
    | x :: _ =>
        if bool_decide (length (uniq vs) = 1) then (Ok x, w1)
        else new_array vs w1
    end.
Proof.
  intros Hes. pose proof (elements_isEnumerable _ _ _ Hes) as He.
  pose proof (isEnumerable_truthy _ _ He) as Ht.
  assert (SC_none (observableContent_of w self) = false) as Hn
    by (destruct (observableContent_of w self); done).
  unfold forwarder, bind. rewrite get_observableContent_eq.
  rewrite SC_none_strict, Hn. simpl.
  destruct (memo_observableContent_same self w) as (Hh & _).
  unfold gets. rewrite Hh, He. unfold getEach. rewrite Hh, Hes.
  fold (gathered (heap w) es key). cbv zeta.
  destruct (gathered (heap w) es key) as [|x vs] eqn:Hvs; [done|].
  assert (strict_eq (VNum (Z.of_nat (length (x :: vs)))) (VNum 0) = false) as ->
    by (apply strict_eq_false; intros [=]).
  unfold strict_eq at 1.
  destruct (decide (length (uniq (x :: vs)) = 1)) as [H1|H1].
  - rewrite (bool_decide_eq_true_2 _ H1).
    rewrite bool_decide_eq_true_2 by (by rewrite H1). done.
  - rewrite (bool_decide_eq_false_2 _ H1).
    rewrite bool_decide_eq_false_2 by (intros [=]; lia). done.
Qed.

Lemma forwarder_not_editable self key v w :
  v ≠ VUndefined →
  SC_none (observableContent_of w self) = false →
  truthy (isEditable (this w self)) = false →
  forwarder self key v w
  = (Throw (NotEditable self key), memo_observableContent self w).
Proof.
  intros Hv Hn Hed. unfold forwarder, bind. rewrite get_observableContent_eq.
  rewrite SC_none_strict, Hn. simpl.
  apply strict_eq_false in Hv. rewrite Hv.
  destruct (memo_observableContent_same self w) as (_&_&_&_&_&_&He&_).
  unfold gets. rewrite He, Hed. done.
Qed.

Lemma forwarder_write_scalar self key v w :
  v ≠ VUndefined →
  SC_none (observableContent_of w self) = false →
  truthy (isEditable (this w self)) = true →
  SC_isEnumerable (heap w) (observableContent_of w self) = false →
  forwarder self key v w
  = (Ok v,
     emit (SetCalled (observableContent_of w self) key v)
       (with_heap (SC_set (heap w) (observableContent_of w self) key v)
          (memo_observableContent self w))).
Proof.
  intros Hv Hn Hed Hen. unfold forwarder, bind. rewrite get_observableContent_eq.
  rewrite SC_none_strict, Hn. simpl.
  apply strict_eq_false in Hv. rewrite Hv.
  destruct (memo_observableContent_same self w) as (Hh&_&_&_&_&_&He&_).
  unfold gets. rewrite He, Hed. simpl. rewrite Hh, Hen. simpl.
  unfold set_call, modify, ret. by rewrite Hh.
Qed.

Lemma forwarder_write_collection self key v w es :
  v ≠ VUndefined →
  truthy (isEditable (this w self)) = true →
  elements (heap w) (observableContent_of w self) = Some es →
  forwarder self key v w
  = (Ok v,
     emit (SetEachCalled (observableContent_of w self) key v)
       (with_heap (fold_left (fun h x => SC_set h x key v) es (heap w))
          (memo_observableContent self w))).
Proof.
  intros Hv Hed Hes. pose proof (elements_isEnumerable _ _ _ Hes) as He.
  assert (SC_none (observableContent_of w self) = false) as Hn
    by (apply isEnumerable_truthy in He;
        destruct (observableContent_of w self); done).
  unfold forwarder, bind. rewrite get_observableContent_eq.
  rewrite SC_none_strict, Hn. simpl.
  apply strict_eq_false in Hv. rewrite Hv.
  destruct (memo_observableContent_same self w) as (Hh&_&_&_&_&_&Hed'&_).
  unfold gets. rewrite Hed', Hed. simpl. rewrite Hh, He. simpl.
  unfold setEach. rewrite Hh, Hes. done.
Qed.

(** ** Distinct values *)

Lemma elem_of_uniq_into seen l x :
  x ∈ uniq_into seen l ↔ x ∈ seen ∨ x ∈ l.
Proof.
  revert seen. induction l as [|y l IH]; intros seen; simpl.
  - rewrite elem_of_nil. tauto.
  - case_bool_decide as Hy.
    + rewrite IH, elem_of_cons. split; [tauto|].
      intros [?|[->|?]]; tauto.
    + rewrite IH, elem_of_app, list_elem_of_singleton, elem_of_cons. tauto.
Qed.

Lemma NoDup_uniq_into seen l : NoDup seen → NoDup (uniq_into seen l).
Proof.
  revert seen. induction l as [|y l IH]; intros seen Hs; simpl; [done|].
  case_bool_decide as Hy; apply IH; [done|].
  apply NoDup_app. split_and!; [done| |apply NoDup_singleton].
  intros z Hz ->%list_elem_of_singleton. done.
Qed.

Lemma elem_of_uniq l x : x ∈ uniq l ↔ x ∈ l.
Proof. unfold uniq. rewrite elem_of_uniq_into, elem_of_nil. tauto. Qed.

Lemma NoDup_uniq l : NoDup (uniq l).
Proof. apply NoDup_uniq_into, NoDup_nil_2. Qed.

(** [uniq] has length 1 exactly when the sequence is not empty and all its
    values are the same one. *)
Lemma uniq_length_1 l :
  length (uniq l) = 1 ↔ ∃ x, x ∈ l ∧ ∀ y, y ∈ l → y = x.
Proof.
  split.
  - intros Hlen. destruct (uniq l) as [|x [|? ?]] eqn:Hu; try discriminate.
    exists x. split.
    + apply (proj1 (elem_of_uniq l x)). rewrite Hu. by left.
    + intros y Hy. apply (proj2 (elem_of_uniq l y)) in Hy. rewrite Hu in Hy.
      by apply list_elem_of_singleton in Hy.
  - intros (x & Hx & Hall).
    pose proof (NoDup_uniq l) as Hnd.
    assert (∀ y, y ∈ uniq l → y = x) as Hall'
      by (intros y Hy; apply Hall, (proj1 (elem_of_uniq l y)), Hy).
    apply (proj2 (elem_of_uniq l x)) in Hx.
    destruct (uniq l) as [|a [|b t]]; [by apply elem_of_nil in Hx|done|].
    exfalso. apply NoDup_cons in Hnd as [Hna _]. apply Hna.
    rewrite (Hall' a), (Hall' b); [by left| |by left].
    right. by left.
Qed.

(** ** Reads and writes of forwarded keys *)

Lemma forwardable_eqb key :
  forwardable key →
  String.eqb key "content" = false ∧
  String.eqb key "allowsMultipleContent" = false ∧
  String.eqb key "isEditable" = false ∧
  String.eqb key "hasContent" = false ∧
  String.eqb key "observableContent" = false.
Proof.
  unfold forwardable, declared. rewrite !not_elem_of_cons.
  intros (?&?&?&?&?&_). by rewrite !String.eqb_neq.
Qed.

Lemma unknownProperty_eq self key v w :
  unknownProperty self key v w = get_forwarded self key (install self key w).
Proof. reflexivity. Qed.

Lemma proxy_get_forwardable self key w :
  forwardable key →
  proxy_get self key w =
    if bool_decide (key ∈ accessors (this w self)) then get_forwarded self key w
    else get_forwarded self key (install self key w).
Proof.
  intros (E1&E2&E3&E4&E5)%forwardable_eqb. unfold proxy_get.
  rewrite E1, E2, E3, E4, E5. unfold bind, gets.
  by destruct (bool_decide _).
Qed.

Lemma proxy_set_forwardable self key v w :
  forwardable key →
  proxy_set self key v w =
    if bool_decide (key ∈ accessors (this w self)) then set_forwarded self key v w
    else get_forwarded self key (install self key w).
Proof.
  intros (E1&E2&E3&E4&E5)%forwardable_eqb. unfold proxy_set.
  rewrite E1, E2, E3, E4, E5. unfold bind, gets.
  by destruct (bool_decide _).
Qed.

Lemma install_this self key w :
  this (install self key w) self
  = with_accessors (accessors (this w self) ++ [key]) (this w self).
Proof. unfold install. by rewrite this_with_this. Qed.

Lemma install_other self key w q :
  q ≠ self → this (install self key w) q = this w q.
Proof. intros Hq. unfold install. by rewrite this_with_this_ne. Qed.

Lemma install_observableContent_of self key w :
  observableContent_of (install self key w) self = observableContent_of w self.
Proof. unfold observableContent_of. by rewrite install_this. Qed.

Lemma get_forwarded_miss self key w :
  cache (this w self) !! key = None →
  get_forwarded self key w =
    match forwarder self key VUndefined w with
    | (Ok v, w') => (Ok v, memoize self key v w')
    | (Throw e, w') => (Throw e, w')
    end.
Proof. intros Hc. unfold get_forwarded, cacheable. by rewrite Hc. Qed.

Lemma get_forwarded_hit self key w v :
  cache (this w self) !! key = Some v → get_forwarded self key w = (Ok v, w).
Proof. intros Hc. unfold get_forwarded, cacheable. by rewrite Hc. Qed.

Lemma set_forwarded_eq self key v w :
  set_forwarded self key v w =
    match forwarder self key v w with
    | (Ok r, w') => (Ok r, memoize self key r w')
    | (Throw e, w') => (Throw e, w')
    end.
Proof.
  unfold set_forwarded, bind. by destruct (forwarder self key v w) as [[r|e] w'].
Qed.

(** A read that evaluates the accessor, whether the key had its accessor
    already or gets it now, runs [forwarder] on a store with the same heap,
    the same target and the same attributes. *)
Lemma proxy_get_miss self key w :
  forwardable key →
  cache (this w self) !! key = None →
  ∃ w0,
    heap w0 = heap w ∧
    observableContent_of w0 self = observableContent_of w self ∧
    proxy_get self key w =
      match forwarder self key VUndefined w0 with
      | (Ok v, w') => (Ok v, memoize self key v w')
      | (Throw e, w') => (Throw e, w')
      end.
Proof.
  intros Hf Hc. rewrite (proxy_get_forwardable _ _ _ Hf).
  case_bool_decide.
  - exists w. split_and!; [done..|]. by apply get_forwarded_miss.
  - exists (install self key w). split_and!; [done| |].
    + apply install_observableContent_of.
    + apply get_forwarded_miss. by rewrite install_this.
Qed.

Lemma heap_memoize self key v w : heap (memoize self key v w) = heap w.
Proof. done. Qed.

Lemma heap_memo_observableContent self w :
  heap (memo_observableContent self w) = heap w.
Proof. apply memo_observableContent_same. Qed.

(** C2, as the code has it. A read of a forwarded key while the target is a
    collection returns the value memoized for the key when there is one,
    without gathering. When there is none it gathers the key from every
    element in order: nothing gathered gives undefined, values that are all
    the same one give that value, and values that differ give a new array
    holding the whole gathered sequence. *)
Theorem forwarded_read_collection (w : world) (self : guid) (key : string)
    (es : list value) :
  forwardable key →
  elements (heap w) (observableContent_of w self) = Some es →
  let vs := gathered (heap w) es key in
  let r := fst (proxy_get self key w) in
  let w' := snd (proxy_get self key w) in
  (∀ x, cache (this w self) !! key = Some x → r = Ok x ∧ heap w' = heap w) ∧
  (cache (this w self) !! key = None →
     (vs = [] → r = Ok VUndefined ∧ heap w' = heap w) ∧
     (∀ x, x ∈ vs → (∀ y, y ∈ vs → y = x) → r = Ok x ∧ heap w' = heap w) ∧
     ((∃ x y, x ∈ vs ∧ y ∈ vs ∧ x ≠ y) →
        ∃ l, r = Ok (VRef l) ∧ heap w !! l = None ∧
             heap w' = <[l := array vs]> (heap w))).
Proof.
  intros Hf Hes vs r w'. split.
  { intros x Hc. subst r w'. rewrite (proxy_get_forwardable _ _ _ Hf).
    case_bool_decide.
    - by rewrite (get_forwarded_hit _ _ _ x).
    - rewrite (get_forwarded_hit _ _ _ x); [done|].
      by rewrite install_this. }
  intros Hc.
  destruct (proxy_get_miss self key w Hf Hc) as (w0 & Hh & Ho & Hget).
  rewrite <- Hh, <- Ho in Hes.
  rewrite (forwarder_read_collection _ _ _ _ Hes) in Hget.
  rewrite Hh in Hget. fold vs in Hget. cbv zeta in Hget.
  subst r w'. split_and!.
  - intros Hvs. rewrite Hget, Hvs. simpl.
    by rewrite heap_memo_observableContent.
  - intros x Hx Hall. rewrite Hget.
    destruct vs as [|x0 vs0] eqn:Hvs; [by apply elem_of_nil in Hx|].
    rewrite bool_decide_eq_true_2 by (apply uniq_length_1; eauto).
    simpl. rewrite heap_memo_observableContent.
    split; [|done]. f_equal. apply Hall. by left.
  - intros (x & y & Hx & Hy & Hxy). rewrite Hget.
    destruct vs as [|x0 vs0] eqn:Hvs; [by apply elem_of_nil in Hx|].
    rewrite bool_decide_eq_false_2.
    2:{ intros (z & _ & Hall)%uniq_length_1.
        apply Hxy. by rewrite (Hall x), (Hall y). }
    unfold new_array. simpl. rewrite heap_memo_observableContent, Hh.
    eexists. split_and!; [done| |done].
    apply not_elem_of_dom. apply is_fresh.
Qed.

Lemma install_accessors self key w :
  key ∈ accessors (this (install self key w) self).
Proof.
  rewrite install_this. simpl. apply elem_of_app. right. by left.
Qed.

(** C3, as the code has it. A write of a value other than undefined to a
    key that has its accessor, while isEditable is falsy and the target is
    neither null nor undefined, raises the error naming the proxy and the
    key; the heap, the registry, the trace and every attribute are as
    before. *)
Theorem write_not_editable_throws (w : world) (self : guid) (key : string)
    (v : value) :
  forwardable key →
  key ∈ accessors (this w self) →
  v ≠ VUndefined →
  truthy (isEditable (this w self)) = false →
  SC_none (observableContent_of w self) = false →
  ∃ w', proxy_set self key v w = (Throw (NotEditable self key), w') ∧
        heap w' = heap w ∧ same_up_to_memo self w w'.
Proof.
  intros Hf Hk Hv Hed Hn. exists (memo_observableContent self w).
  rewrite (proxy_set_forwardable _ _ _ _ Hf).
  rewrite bool_decide_eq_true_2 by done.
  rewrite set_forwarded_eq, (forwarder_not_editable _ _ _ _ Hv Hn Hed).
  split_and!; [done| |]; apply memo_observableContent_same.
Qed.

(** C4, as the code has it. A write to a forwarded key while the target is
    null or undefined raises nothing and leaves the heap and the trace as
    they are; the accessor yields undefined, whatever the value written,
    and the next read of the key yields undefined. *)
Theorem write_without_target (w : world) (self : guid) (key : string)
    (v : value) :
  forwardable key →
  (key ∉ accessors (this w self) → cache (this w self) !! key = None) →
  SC_none (observableContent_of w self) = true →
  ∃ w', proxy_set self key v w = (Ok VUndefined, w') ∧
        heap w' = heap w ∧ trace w' = trace w ∧
        proxy_get self key w' = (Ok VUndefined, w').
Proof.
  intros Hf Hc Hn. rewrite (proxy_set_forwardable _ _ _ _ Hf).
  case_bool_decide as Hk.
  - rewrite set_forwarded_eq, (forwarder_absent _ _ _ _ Hn).
    eexists. split; [done|].
    destruct (memo_observableContent_same self w) as (Hh&_&Ht&_&_&_&_&Ha).
    split_and!; [done..|].
    rewrite (proxy_get_forwardable _ _ _ Hf).
    destruct (memoize_same self key VUndefined (memo_observableContent self w))
      as (_&_&_&_&_&_&_&Ha').
    rewrite bool_decide_eq_true_2 by (by rewrite Ha', Ha).
    apply get_forwarded_hit, memoize_hit.
  - rewrite get_forwarded_miss by (rewrite install_this; auto).
    rewrite forwarder_absent by (by rewrite install_observableContent_of).
    eexists. split; [done|].
    destruct (memo_observableContent_same self (install self key w))
      as (Hh&_&Ht&_&_&_&_&Ha).
    split_and!; [done..|].
    rewrite (proxy_get_forwardable _ _ _ Hf).
    destruct (memoize_same self key VUndefined
                (memo_observableContent self (install self key w)))
      as (_&_&_&_&_&_&_&Ha').
    rewrite bool_decide_eq_true_2
      by (rewrite Ha', Ha; apply install_accessors).
    apply get_forwarded_hit, memoize_hit.
Qed.

(** ** What a write may touch *)

Lemma same_attributes_refl w : same_attributes w w.
Proof. by intros q. Qed.

Lemma same_attributes_trans w1 w2 w3 :
  same_attributes w1 w2 → same_attributes w2 w3 → same_attributes w1 w3.
Proof.
  intros H12 H23 q. destruct (H12 q) as (?&?&?), (H23 q) as (?&?&?).
  split_and!; congruence.
Qed.

Lemma same_up_to_memo_attributes self w w' :
  same_up_to_memo self w w' → same_attributes w w'.
Proof.
  intros (_&_&_&Hq&?&?&?&_) q. destruct (decide (q = self)) as [->|Hne].
  - done.
  - by rewrite (Hq q Hne).
Qed.

Lemma install_attributes self key w : same_attributes w (install self key w).
Proof.
  intros q. destruct (decide (q = self)) as [->|Hne].
  - by rewrite install_this.
  - by rewrite install_other.
Qed.

Lemma with_heap_attributes h w : same_attributes w (with_heap h w).
Proof. by intros q. Qed.

Lemma emit_attributes e w : same_attributes w (emit e w).
Proof. by intros q. Qed.

Lemma memo_attributes self w : same_attributes w (memo_observableContent self w).
Proof. apply (same_up_to_memo_attributes self), memo_observableContent_same. Qed.

Lemma memoize_attributes self key v w : same_attributes w (memoize self key v w).
Proof. apply (same_up_to_memo_attributes self), memoize_same. Qed.

Lemma SC_set_other h t key v l : t ≠ VRef l → SC_set h t key v !! l = h !! l.
Proof.
  intros Ht. destruct t as [| | | | |l0]; try done. simpl.
  destruct (h !! l0) eqn:E; [|done].
  apply lookup_insert_ne. congruence.
Qed.

Lemma SC_set_target h l o key v :
  h !! l = Some o → SC_set h (VRef l) key v !! l = Some (obj_set o key v).
Proof. intros E. simpl. rewrite E. apply lookup_insert_eq. Qed.

Lemma SC_set_dangling h l key v :
  h !! l = None → SC_set h (VRef l) key v = h.
Proof. intros E. simpl. by rewrite E. Qed.

(** A write to a forwarded key while the target is a scalar leaves the heap
    as it is or performs exactly [set(target, key, v)]. *)
Lemma proxy_set_scalar self key v w :
  forwardable key →
  SC_none (observableContent_of w self) = false →
  SC_isEnumerable (heap w) (observableContent_of w self) = false →
  let w' := snd (proxy_set self key v w) in
  same_attributes w w' ∧
  (heap w' = heap w ∨
   heap w' = SC_set (heap w) (observableContent_of w self) key v).
Proof.
  intros Hf Hn He. rewrite (proxy_set_forwardable _ _ _ _ Hf).
  case_bool_decide as Hk.
  - rewrite set_forwarded_eq.
    destruct (decide (v = VUndefined)) as [->|Hv].
    { rewrite (forwarder_read_scalar _ _ _ Hn He). simpl.
      split; [|left; apply heap_memo_observableContent].
      eapply same_attributes_trans;
        [apply memo_attributes|apply memoize_attributes]. }
    destruct (truthy (isEditable (this w self))) eqn:Hed.
    + rewrite (forwarder_write_scalar _ _ _ _ Hv Hn Hed He). simpl.
      split; [|by right].
      eapply same_attributes_trans; [apply memo_attributes|].
      eapply same_attributes_trans; [apply with_heap_attributes|].
      eapply same_attributes_trans;
        [apply emit_attributes|apply memoize_attributes].
    + rewrite (forwarder_not_editable _ _ _ _ Hv Hn Hed). simpl.
      split; [apply memo_attributes|].
      left. apply heap_memo_observableContent.
  - unfold get_forwarded, cacheable.
    destruct (cache (this (install self key w) self) !! key).
    { simpl. split; [apply install_attributes|by left]. }
    rewrite forwarder_read_scalar
      by (by rewrite ?install_observableContent_of).
    simpl. split; [|left; by rewrite heap_memo_observableContent].
    eapply same_attributes_trans; [apply install_attributes|].
    eapply same_attributes_trans;
      [apply memo_attributes|apply memoize_attributes].
Qed.

(** C9. A write to a forwarded key while the target is a scalar that is
    neither null nor undefined leaves the content, allowsMultipleContent and
    isEditable of every proxy as they were, leaves every heap object other
    than the target as it was, and on the target changes no property other
    than the key written (nor its elements or its destroy member). *)
Theorem write_scalar_frame (w : world) (self : guid) (key : string)
    (v : value) :
  forwardable key →
  SC_none (observableContent_of w self) = false →
  SC_isEnumerable (heap w) (observableContent_of w self) = false →
  let t := observableContent_of w self in
  let w' := snd (proxy_set self key v w) in
  content (this w' self) = content (this w self) ∧
  allowsMultipleContent (this w' self) = allowsMultipleContent (this w self) ∧
  isEditable (this w' self) = isEditable (this w self) ∧
  same_attributes w w' ∧
  (∀ l, t ≠ VRef l → heap w' !! l = heap w !! l) ∧
  (∀ l, t = VRef l → heap w !! l = None → heap w' !! l = None) ∧
  (∀ l o, t = VRef l → heap w !! l = Some o →
     ∃ o', heap w' !! l = Some o' ∧ elems o' = elems o ∧
           destroyable o' = destroyable o ∧
           ∀ k, k ≠ key → props o' !! k = props o !! k).
Proof.
  intros Hf Hn He t w'.
  destruct (proxy_set_scalar self key v w Hf Hn He) as [Ha Hh].
  fold w' t in Ha, Hh. destruct (Ha self) as (Hc & Hm & Hed).
  split_and!; try done.
  - intros l Hl. destruct Hh as [->| ->]; [done|]. by apply SC_set_other.
  - intros l Hl Hnone. destruct Hh as [->| ->]; [done|].
    by rewrite Hl, SC_set_dangling.
  - intros l o Hl Ho. destruct Hh as [->| ->].
    + exists o. by split_and!.
    + exists (obj_set o key v). rewrite Hl. split_and!; try done.
      * by apply SC_set_target.
      * intros k Hk. simpl. by apply lookup_insert_ne.
Qed.

(** The write of C9 does take place: with its accessor installed, the proxy
    editable and a value other than undefined, the target's property becomes
    the value written. *)
Lemma write_scalar_effect w self key v l o :
  forwardable key →
  key ∈ accessors (this w self) →
  v ≠ VUndefined →
  truthy (isEditable (this w self)) = true →
  observableContent_of w self = VRef l →
  heap w !! l = Some o →
  SC_isEnumerable (heap w) (VRef l) = false →
  ∃ w', proxy_set self key v w = (Ok v, w') ∧
        heap w' = <[l := obj_set o key v]> (heap w).
Proof.
  intros Hf Hk Hv Hed Ht Ho He.
  rewrite (proxy_set_forwardable _ _ _ _ Hf).
  rewrite bool_decide_eq_true_2 by done.
  rewrite set_forwarded_eq, forwarder_write_scalar; rewrite ?Ht; try done.
  eexists. split; [done|]. simpl. by rewrite Ho.
Qed.

(** C10, as the code has it. Only null and undefined count as no target.
    With a target that is falsy but neither of them (false, 0, the empty
    string), a read of a forwarded key returns the value memoized for the
    key when there is one and [get(target, key)] when it evaluates the
    accessor; a write of a value other than undefined through the installed
    accessor calls [set(target, key, v)] and returns the value when
    isEditable is truthy, and raises the editability error without calling
    [set] when isEditable is falsy; and the resolver returns such content
    unchanged. *)
Theorem falsy_target_is_forwarded (w : world) (self : guid) (key : string)
    (v : value) :
  forwardable key →
  truthy (observableContent_of w self) = false →
  SC_none (observableContent_of w self) = false →
  let t := observableContent_of w self in
  let written := proxy_set self key v w in
  (cache (this w self) !! key = None →
     fst (proxy_get self key w) = Ok (SC_get (heap w) t key)) ∧
  (∀ x, cache (this w self) !! key = Some x →
     fst (proxy_get self key w) = Ok x) ∧
  (key ∈ accessors (this w self) → v ≠ VUndefined →
     if truthy (isEditable (this w self))
     then fst written = Ok v ∧
          heap (snd written) = SC_set (heap w) t key v ∧
          trace (snd written) = (trace w ++ [SetCalled t key v])%list
     else fst written = Throw (NotEditable self key) ∧
          heap (snd written) = heap w ∧
          trace (snd written) = trace w) ∧
  (∀ h p, content p = t → observableContent h p = t).
Proof.
  intros Hf Ht Hn t written. subst written. split_and!.
  - intros Hc.
    destruct (proxy_get_miss self key w Hf Hc) as (w0 & Hh & Ho & ->).
    rewrite forwarder_read_scalar; rewrite ?Ho, ?Hh; try done.
    by apply falsy_not_enumerable.
  - intros x Hc. rewrite (proxy_get_forwardable _ _ _ Hf).
    case_bool_decide.
    + by rewrite (get_forwarded_hit _ _ _ x).
    + rewrite (get_forwarded_hit _ _ _ x); [done|]. by rewrite install_this.
  - intros Hk Hv. rewrite (proxy_set_forwardable _ _ _ _ Hf).
    rewrite bool_decide_eq_true_2 by done. rewrite set_forwarded_eq.
    destruct (memo_observableContent_same self w) as (Hh & _ & Htr & _).
    destruct (truthy (isEditable (this w self))) eqn:Hed.
    + rewrite forwarder_write_scalar; try done;
        [|by apply falsy_not_enumerable].
      simpl. by rewrite Htr.
    + rewrite forwarder_not_editable by done. simpl. by rewrite Hh, Htr.
  - intros h p Hp. rewrite observableContent_not_collection; [done|].
    rewrite Hp. by apply falsy_not_enumerable.
Qed.

(** ** The content observer *)

Lemma this_emit e w q : this (emit e w) q = this w q.
Proof. done. Qed.

Lemma notify_one self key w :
  let w' := notifyPropertyChange self key w in
  heap w' = heap w ∧
  _proxiedProperties w' = _proxiedProperties w ∧
  trace w' = (trace w ++ [Notified self key])%list ∧
  (∀ q, q ≠ self → this w' q = this w q) ∧
  this w' self = with_cache (delete key (cache (this w self))) (this w self).
Proof.
  unfold notifyPropertyChange. split_and!; try done.
  - intros q Hq. rewrite this_emit. by apply this_with_this_ne.
  - rewrite this_emit. apply this_with_this.
Qed.

Lemma notify_all self ks w :
  let w' := fold_left (fun w key => notifyPropertyChange self key w) ks w in
  heap w' = heap w ∧
  _proxiedProperties w' = _proxiedProperties w ∧
  trace w' = (trace w ++ map (Notified self) ks)%list ∧
  (∀ q, q ≠ self → this w' q = this w q) ∧
  content (this w' self) = content (this w self) ∧
  allowsMultipleContent (this w' self) = allowsMultipleContent (this w self) ∧
  isEditable (this w' self) = isEditable (this w self) ∧
  accessors (this w' self) = accessors (this w self) ∧
  (∀ k, cache (this w' self) !! k
        = if bool_decide (k ∈ ks) then None else cache (this w self) !! k).
Proof.
  revert w. induction ks as [|key ks IH]; intros w; simpl.
  - split_and!; try done. by rewrite app_nil_r.
  - destruct (IH (notifyPropertyChange self key w))
      as (Hh & Hr & Ht & Hq & Hc & Hm & He & Ha & Hk).
    destruct (notify_one self key w) as (Hh1 & Hr1 & Ht1 & Hq1 & Hp1).
    rewrite Hh, Hr, Ht, Hc, Hm, He, Ha, Hh1, Hr1, Ht1, Hp1.
    split_and!; try done.
    + by rewrite <- app_assoc.
    + intros q Hne. by rewrite (Hq q Hne), (Hq1 q Hne).
    + intros k. rewrite Hk, Hp1. simpl.
      destruct (decide (k = key)) as [->|Hne].
      * rewrite lookup_delete_eq.
        rewrite (bool_decide_eq_true_2 (key ∈ key :: ks)) by (by left).
        by case_bool_decide.
      * rewrite lookup_delete_ne by done.
        rewrite (bool_decide_ext (k ∈ key :: ks) (k ∈ ks)); [done|].
        rewrite elem_of_cons. split; [by intros [?|?]|by right].
Qed.

Lemma set_content_spec self v w :
  let w' := set_content self v w in
  heap w' = heap w ∧
  _proxiedProperties w' = _proxiedProperties w ∧
  trace w' = (trace w ++ map (Notified self) (_proxiedProperties w))%list ∧
  (∀ q, q ≠ self → this w' q = this w q) ∧
  content (this w' self) = v ∧
  allowsMultipleContent (this w' self) = allowsMultipleContent (this w self) ∧
  isEditable (this w' self) = isEditable (this w self) ∧
  accessors (this w' self) = accessors (this w self) ∧
  (∀ k, cache (this w' self) !! k = None).
Proof.
  unfold set_content, contentDidChange.
  set (p := Proxy v _ _ _ _). simpl.
  destruct (notify_all self (_proxiedProperties w) (with_this self p w))
    as (Hh & Hr & Ht & Hq & Hc & Hm & He & Ha & Hk).
  rewrite this_with_this in Hc, Hm, He, Ha, Hk.
  split_and!; try done.
  - intros q Hne. rewrite (Hq q Hne). by apply this_with_this_ne.
  - intros k. rewrite Hk. by case_bool_decide.
Qed.

(** C6. A change of content notifies every key of the registry: running the
    observer drops what is memoized for the key and announces the key, and
    so does a write of any value to [content], whether or not the forwarded
    value differs afterwards. *)
Theorem content_change_notifies (w : world) (self : guid) (v : value)
    (key : string) :
  key ∈ _proxiedProperties w →
  let w1 := contentDidChange self w in
  let w2 := snd (proxy_set self "content" v w) in
  cache (this w1 self) !! key = None ∧
  trace w1 = (trace w ++ map (Notified self) (_proxiedProperties w))%list ∧
  cache (this w2 self) !! key = None ∧
  trace w2 = (trace w ++ map (Notified self) (_proxiedProperties w))%list ∧
  Notified self key ∈ map (Notified self) (_proxiedProperties w).
Proof.
  intros Hk w1 w2.
  destruct (notify_all self (_proxiedProperties w) w)
    as (_ & _ & Ht & _ & _ & _ & _ & _ & Hc).
  destruct (set_content_spec self v w)
    as (_ & _ & Ht' & _ & _ & _ & _ & _ & Hc').
  split_and!.
  - subst w1. unfold contentDidChange. rewrite Hc.
    by rewrite bool_decide_eq_true_2.
  - apply Ht.
  - apply Hc'.
  - apply Ht'.
  - by apply list_elem_of_fmap_2.
Qed.

(** ** destroy *)

Lemma destroy_calls_app t1 t2 :
  destroy_calls (t1 ++ t2) = (destroy_calls t1 ++ destroy_calls t2)%list.
Proof. apply omap_app. Qed.

Lemma destroy_calls_notified self ks :
  destroy_calls (map (Notified self) ks) = [].
Proof. by induction ks. Qed.

Lemma has_destroy_ref h v : has_destroy h v = true → ∃ l, v = VRef l.
Proof. destruct v; try discriminate. eauto. Qed.

Lemma observableContent_of_null self w :
  content (this w self) = VNull →
  cache (this w self) !! "observableContent" = None →
  observableContent_of w self = VNull.
Proof.
  intros Hc Hm. unfold observableContent_of. rewrite Hm.
  rewrite observableContent_not_collection; [done|].
  rewrite Hc. by apply falsy_not_enumerable.
Qed.

Lemma destroy_eq self w :
  let c := observableContent_of w self in
  let w1 := memo_observableContent self w in
  destroy self w =
    (Ok self,
     set_content self VNull
       (match c with
        | VRef l => if has_destroy (heap w) c then emit (Destroyed l) w1 else w1
        | _ => w1
        end)).
Proof.
  intros c w1. subst c w1. unfold destroy, bind.
  rewrite get_observableContent_eq. unfold gets. cbv beta iota.
  rewrite (heap_memo_observableContent self w).
  destruct (observableContent_of w self) as [| | b | n | s | l];
    simpl; rewrite ?andb_false_r; try done.
  by destruct (match heap w !! l with Some o => destroyable o | None => false end).
Qed.

(** C7. [destroy()] returns the proxy and leaves its content null. When the
    target is neither null nor undefined and has a callable destroy, that
    destroy is invoked exactly once, before the content is cleared; when
    not, nothing is invoked. A second [destroy()] right after returns the
    proxy again and invokes nothing. *)
Theorem destroy_cascades_once (w : world) (self : guid) :
  let c := observableContent_of w self in
  let announced := map (Notified self) (_proxiedProperties w) in
  let w1 := snd (destroy self w) in
  let w2 := snd (destroy self w1) in
  fst (destroy self w) = Ok self ∧
  content (this w1 self) = VNull ∧
  fst (hasContent self w1) = Ok (VBool false) ∧
  (SC_none c = false → has_destroy (heap w) c = true →
     ∃ l, c = VRef l ∧
          trace w1 = (trace w ++ Destroyed l :: announced)%list ∧
          destroy_calls (trace w1) = (destroy_calls (trace w) ++ [l])%list) ∧
  (SC_none c = true ∨ has_destroy (heap w) c = false →
     trace w1 = (trace w ++ announced)%list ∧
     destroy_calls (trace w1) = destroy_calls (trace w)) ∧
  fst (destroy self w1) = Ok self ∧
  content (this w2 self) = VNull ∧
  destroy_calls (trace w2) = destroy_calls (trace w1).
Proof.
  intros c announced w1 w2.
  pose proof (destroy_eq self w) as E1. cbv zeta in E1. fold c in E1.
  set (wm := match c with
             | VRef l =>
                 if has_destroy (heap w) c
                 then emit (Destroyed l) (memo_observableContent self w)
                 else memo_observableContent self w
             | _ => memo_observableContent self w
             end) in E1.
  assert (w1 = set_content self VNull wm) as Hw1 by (subst w1; by rewrite E1).
  destruct (set_content_spec self VNull wm)
    as (Hh & Hr & Ht & Hq & Hc & Hm & He & Ha & Hk).
  rewrite <- Hw1 in Hh, Hr, Ht, Hq, Hc, Hm, He, Ha, Hk.
  destruct (memo_observableContent_same self w) as (Hmh & Hmr & Hmt & _).
  assert (_proxiedProperties wm = _proxiedProperties w) as Hwr
    by (subst wm; destruct c; try done; by destruct (has_destroy _ _)).
  assert (observableContent_of w1 self = VNull) as Ho1
    by (by apply observableContent_of_null).
  pose proof (destroy_eq self w1) as E2. cbv zeta in E2. rewrite Ho1 in E2.
  destruct (set_content_spec self VNull (memo_observableContent self w1))
    as (_ & _ & Ht2 & _ & Hc2 & _).
  destruct (memo_observableContent_same self w1) as (_ & _ & Hmt1 & _).
  split_and!.
  - by rewrite E1.
  - done.
  - unfold hasContent, bind. rewrite get_observableContent_eq, Ho1. done.
  - intros Hn Hd. destruct (has_destroy_ref _ _ Hd) as [l Hl].
    exists l. split; [done|].
    assert (trace w1 = (trace w ++ Destroyed l :: announced)%list) as Htr.
    { rewrite Ht, Hwr. subst wm. rewrite Hl. rewrite Hl in Hd. rewrite Hd.
      simpl. rewrite Hmt. by rewrite <- app_assoc. }
    split; [done|]. rewrite Htr, destroy_calls_app. simpl.
    unfold announced. by rewrite destroy_calls_notified.
  - intros Hno.
    assert (trace wm = trace w) as Htm.
    { subst wm. destruct Hno as [Hn|Hd].
      - by destruct c.
      - destruct c; try done. by rewrite Hd. }
    assert (trace w1 = (trace w ++ announced)%list) as Htr
      by (by rewrite Ht, Hwr, Htm).
    split; [done|]. rewrite Htr, destroy_calls_app.
    unfold announced. by rewrite destroy_calls_notified, app_nil_r.
  - by rewrite E2.
  - subst w2. by rewrite E2.
  - subst w2. rewrite E2. simpl. rewrite Ht2, destroy_calls_app.
    by rewrite destroy_calls_notified, app_nil_r, Hmt1.
Qed.

(** ** Accessors and the registry *)

Create HintDb keeps.

Lemma stable_refl w : stable w w.
Proof. by split. Qed.

Lemma stable_trans w1 w2 w3 : stable w1 w2 → stable w2 w3 → stable w1 w3.
Proof.
  intros [Hr Ha] [Hr' Ha']. split; [congruence|].
  intros q. by rewrite Ha', Ha.
Qed.

Lemma stable_same_up_to_memo self w w' : same_up_to_memo self w w' → stable w w'.
Proof.
  intros (_&Hr&_&Hq&_&_&_&Ha). split; [done|].
  intros q. destruct (decide (q = self)) as [->|Hne]; [done|].
  by rewrite (Hq q Hne).
Qed.

Lemma stable_memoize self key v w : stable w (memoize self key v w).
Proof. apply (stable_same_up_to_memo self), memoize_same. Qed.

Lemma stable_with_heap h w : stable w (with_heap h w).
Proof. by split. Qed.

Lemma stable_emit e w : stable w (emit e w).
Proof. by split. Qed.

Lemma stable_set_content self v w : stable w (set_content self v w).
Proof.
  destruct (set_content_spec self v w) as (_&Hr&_&Hq&_&_&_&Ha&_).
  split; [done|]. intros q.
  destruct (decide (q = self)) as [->|Hne]; [done|]. by rewrite (Hq q Hne).
Qed.

Lemma stable_set_allowsMultipleContent self v w :
  stable w (set_allowsMultipleContent self v w).
Proof.
  split; [done|]. intros q. unfold set_allowsMultipleContent.
  destruct (decide (q = self)) as [->|Hne].
  - by rewrite this_with_this.
  - by rewrite this_with_this_ne.
Qed.

Lemma stable_set_isEditable self v w : stable w (set_isEditable self v w).
Proof.
  split; [done|]. intros q. unfold set_isEditable.
  destruct (decide (q = self)) as [->|Hne].
  - by rewrite this_with_this.
  - by rewrite this_with_this_ne.
Qed.

Lemma keeps_ret {A} (a : A) : keeps (ret a).
Proof. intros w. apply stable_refl. Qed.

Lemma keeps_throw {A} e : keeps (@throw A e).
Proof. intros w. apply stable_refl. Qed.

Lemma keeps_gets {A} (f : world → A) : keeps (gets f).
Proof. intros w. apply stable_refl. Qed.

Lemma keeps_modify f : (∀ w, stable w (f w)) → keeps (modify f).
Proof. intros Hf w. apply Hf. Qed.

Lemma keeps_bind {A B} (m : M A) (f : A → M B) :
  keeps m → (∀ a, keeps (f a)) → keeps (bind m f).
Proof.
  intros Hm Hf w. unfold bind. specialize (Hm w).
  destruct (m w) as [[a|e] w1]; [|done].
  eapply stable_trans; [exact Hm|apply Hf].
Qed.

Lemma keeps_if {A} (b : bool) (m1 m2 : M A) :
  keeps m1 → keeps m2 → keeps (if b then m1 else m2).
Proof. by destruct b. Qed.

Lemma keeps_getEach c key : keeps (getEach c key).
Proof.
  intros w. unfold getEach. destruct (elements _ _); apply stable_refl.
Qed.

Lemma keeps_setEach c key v : keeps (setEach c key v).
Proof.
  intros w. unfold setEach.
  destruct (elements _ _); [apply stable_with_heap|apply stable_refl].
Qed.

Lemma keeps_set_call t key v : keeps (set_call t key v).
Proof. intros w. by split. Qed.

Lemma keeps_new_array vs : keeps (new_array vs).
Proof. intros w. apply stable_with_heap. Qed.

Lemma keeps_cacheable self key m : keeps m → keeps (cacheable self key m).
Proof.
  intros Hm w. unfold cacheable.
  destruct (cache _ !! key); [apply stable_refl|].
  specialize (Hm w). destruct (m w) as [[v|e] w1]; [|done].
  eapply stable_trans; [exact Hm|apply stable_memoize].
Qed.

#[local] Hint Resolve keeps_ret keeps_throw keeps_gets keeps_getEach
  keeps_set_call keeps_setEach keeps_new_array keeps_cacheable keeps_if stable_memoize
  stable_with_heap stable_emit stable_set_content
  stable_set_allowsMultipleContent stable_set_isEditable : keeps.

Ltac keeps_step :=
  match goal with
  | |- keeps (bind _ _) => apply keeps_bind; [|intros ?]
  | |- keeps (if _ then _ else _) => apply keeps_if
  | |- keeps (modify _) => apply keeps_modify; intros ?
  | |- keeps (match ?c with _ => _ end) => destruct c
  | |- _ => solve [auto with keeps]
  end.

Ltac by_keeps :=
  match goal with
  | |- stable ?w (snd (?m ?w)) =>
      let H := fresh in
      assert (keeps m) as H by (repeat keeps_step); apply H
  end.

Lemma keeps_get_observableContent self : keeps (get_observableContent self).
Proof. unfold get_observableContent. auto with keeps. Qed.

#[local] Hint Resolve keeps_get_observableContent : keeps.

Lemma keeps_forwarder self key v : keeps (forwarder self key v).
Proof.
  unfold forwarder. repeat keeps_step.
Qed.

#[local] Hint Resolve keeps_forwarder : keeps.

Lemma keeps_get_forwarded self key : keeps (get_forwarded self key).
Proof. unfold get_forwarded. auto with keeps. Qed.

Lemma keeps_set_forwarded self key v : keeps (set_forwarded self key v).
Proof.
  unfold set_forwarded. repeat keeps_step.
Qed.

Lemma keeps_hasContent self : keeps (hasContent self).
Proof. unfold hasContent. repeat keeps_step. Qed.

#[local] Hint Resolve keeps_get_forwarded keeps_set_forwarded keeps_hasContent
  : keeps.

Lemma keeps_destroy self : keeps (destroy self).
Proof.
  unfold destroy. repeat keeps_step.
Qed.

Lemma elem_of_Set_add key k s : k ∈ Set_add key s ↔ k = key ∨ k ∈ s.
Proof.
  unfold Set_add. case_bool_decide as Hk.
  - split; [by right|]. by intros [->|?].
  - rewrite elem_of_app, list_elem_of_singleton. tauto.
Qed.

Lemma registered_stable w w' : stable w w' → registered w → registered w'.
Proof.
  intros [Hr Ha] Hreg q. rewrite Ha, Hr. apply Hreg.
Qed.

Lemma registered_install self key w :
  key ∉ accessors (this w self) → registered w → registered (install self key w).
Proof.
  intros Hk Hreg q. destruct (decide (q = self)) as [->|Hne].
  - rewrite install_this. simpl. destruct (Hreg self) as [Hnd Hin]. split.
    + apply NoDup_app. split_and!; [done| |apply NoDup_singleton].
      intros k Hk' ->%list_elem_of_singleton. done.
    + intros k [Hk'| ->%list_elem_of_singleton]%elem_of_app;
        apply elem_of_Set_add; auto.
  - rewrite install_other by done. destruct (Hreg q) as [Hnd Hin].
    split; [done|]. intros k Hk'. apply elem_of_Set_add. auto.
Qed.

(** X18. The part of C8 that the code keeps: no operation of the proxy
    installs a second accessor for a key on the same instance, and every
    key with an accessor is in the registry. *)
Lemma registered_preserved self key v w :
  registered w →
  registered (snd (proxy_get self key w)) ∧
  registered (snd (proxy_set self key v w)) ∧
  registered (snd (destroy self w)).
Proof.
  intros Hreg. split_and!.
  - unfold proxy_get.
    repeat (destruct (String.eqb key _);
            [eapply registered_stable; [|exact Hreg];
             by_keeps|]).
    unfold bind, gets. case_bool_decide as Hk.
    + eapply registered_stable; [apply keeps_get_forwarded|exact Hreg].
    + rewrite unknownProperty_eq.
      eapply registered_stable; [apply keeps_get_forwarded|].
      by apply registered_install.
  - unfold proxy_set.
    repeat (destruct (String.eqb key _);
            [eapply registered_stable; [|exact Hreg]; by_keeps|]).
    unfold bind, gets. case_bool_decide as Hk.
    + eapply registered_stable; [apply keeps_set_forwarded|exact Hreg].
    + rewrite unknownProperty_eq.
      eapply registered_stable; [apply keeps_get_forwarded|].
      by apply registered_install.
  - eapply registered_stable; [apply keeps_destroy|exact Hreg].
Qed.

Lemma registered_empty_world : registered empty_world.
Proof.
  intros q. unfold this, empty_world. simpl. rewrite lookup_total_empty.
  simpl. split; [apply NoDup_nil_2|]. by intros k ?%elem_of_nil.
Qed.

End Properties.

(** * Further properties of the proxy *)

Section Behaviour.
Context {RT : Runtime}.

(** ** Reads *)

Lemma extends_refl w : extends w w.
Proof. split_and!; [done|apply same_attributes_refl|done]. Qed.

Lemma extends_trans w1 w2 w3 : extends w1 w2 → extends w2 w3 → extends w1 w3.
Proof.
  intros (Ht & Ha & Hh) (Ht' & Ha' & Hh'). split_and!.
  - congruence.
  - by eapply same_attributes_trans.
  - eauto.
Qed.

Lemma extends_same_up_to_memo self w w' : same_up_to_memo self w w' → extends w w'.
Proof.
  intros Hs. pose proof (same_up_to_memo_attributes _ _ _ Hs) as Ha.
  destruct Hs as (Hh & _ & Ht & _). split_and!; [done..|].
  intros l o. by rewrite Hh.
Qed.

Lemma extends_memoize self key v w : extends w (memoize self key v w).
Proof. apply (extends_same_up_to_memo self), memoize_same. Qed.

Lemma extends_install self key w : extends w (install self key w).
Proof. split_and!; [done|apply install_attributes|done]. Qed.

Lemma extends_new_array vs w : extends w (snd (new_array vs w)).
Proof.
  split_and!; [done|apply with_heap_attributes|].
  intros l o Hl. simpl. rewrite lookup_insert_ne; [done|].
  intros <-. pose proof (is_fresh (dom (heap w))) as Hf.
  apply not_elem_of_dom in Hf. congruence.
Qed.

Lemma quiet_ret {A} (a : A) : quiet (ret a).
Proof. intros w. split; [apply extends_refl|done]. Qed.

Lemma quiet_gets {A} (f : world → A) : quiet (gets f).
Proof. intros w. split; [apply extends_refl|done]. Qed.

Lemma quiet_modify f : (∀ w, extends w (f w)) → quiet (modify f).
Proof. intros Hf w. split; [apply Hf|done]. Qed.

Lemma quiet_bind {A B} (m : M A) (f : A → M B) :
  quiet m → (∀ a, quiet (f a)) → quiet (bind m f).
Proof.
  intros Hm Hf w. unfold bind. destruct (Hm w) as [He Hn].
  destruct (m w) as [[a|e] w1]; simpl in *.
  - destruct (Hf a w1) as [He' Hn']. split; [by eapply extends_trans|done].
  - split; [done|]. intros q k [= ->]. by apply (Hn q k).
Qed.

Lemma quiet_if {A} (b : bool) (m1 m2 : M A) :
  quiet m1 → quiet m2 → quiet (if b then m1 else m2).
Proof. by destruct b. Qed.

Lemma quiet_getEach c key : quiet (getEach c key).
Proof.
  intros w. unfold getEach.
  destruct (elements _ _); (split; [apply extends_refl|done]).
Qed.

Lemma quiet_new_array vs : quiet (new_array vs).
Proof. intros w. split; [apply extends_new_array|done]. Qed.

Lemma quiet_cacheable self key m : quiet m → quiet (cacheable self key m).
Proof.
  intros Hm w. unfold cacheable.
  destruct (cache _ !! key); [split; [apply extends_refl|done]|].
  destruct (Hm w) as [He Hn]. destruct (m w) as [[v|e] w1]; simpl in *.
  - split; [|done]. eapply extends_trans; [exact He|apply extends_memoize].
  - split; [done|]. intros q k [= ->]. by apply (Hn q k).
Qed.

Ltac quiet_step :=
  match goal with
  | |- quiet (bind _ _) => apply quiet_bind; [|intros ?]
  | |- quiet (if _ then _ else _) => apply quiet_if
  | |- quiet (cacheable _ _ _) => apply quiet_cacheable
  | |- quiet (ret _) => apply quiet_ret
  | |- quiet (gets _) => apply quiet_gets
  | |- quiet (getEach _ _) => apply quiet_getEach
  | |- quiet (new_array _) => apply quiet_new_array
  end.

Lemma quiet_get_observableContent self : quiet (get_observableContent self).
Proof. unfold get_observableContent. repeat quiet_step. Qed.

Lemma quiet_forwarder_read self key : quiet (forwarder self key VUndefined).
Proof.
  unfold forwarder. apply quiet_bind; [apply quiet_get_observableContent|].
  intros c. rewrite strict_eq_refl. repeat quiet_step.
Qed.

Lemma quiet_get_forwarded self key : quiet (get_forwarded self key).
Proof. apply quiet_cacheable, quiet_forwarder_read. Qed.

Lemma quiet_unknownProperty self key v : quiet (unknownProperty self key v).
Proof.
  intros w. rewrite unknownProperty_eq.
  destruct (quiet_get_forwarded self key (install self key w)) as [He Hn].
  split; [|done]. eapply extends_trans; [apply extends_install|exact He].
Qed.

Lemma quiet_hasContent self : quiet (hasContent self).
Proof.
  unfold hasContent. apply quiet_bind; [apply quiet_get_observableContent|].
  intros c. apply quiet_ret.
Qed.

Lemma quiet_proxy_get self key : quiet (proxy_get self key).
Proof.
  unfold proxy_get.
  repeat (apply quiet_if;
          [first [apply quiet_gets|apply quiet_hasContent
                 |apply quiet_get_observableContent]|]).
  apply quiet_bind; [apply quiet_gets|]. intros known.
  apply quiet_if; [apply quiet_get_forwarded|apply quiet_unknownProperty].
Qed.

(** X1. A read of any key never raises the editability error, announces
    nothing and destroys nothing, leaves the three attributes of every proxy
    as they are, and leaves every object of the heap as it is (a fan-out
    read may add the array it returns). *)
Theorem read_changes_nothing (w : world) (self : guid) (key : string) :
  let w' := snd (proxy_get self key w) in
  (∀ q k, fst (proxy_get self key w) ≠ Throw (NotEditable q k)) ∧
  trace w' = trace w ∧
  same_attributes w w' ∧
  (∀ l o, heap w !! l = Some o → heap w' !! l = Some o).
Proof.
  intros w'. destruct (quiet_proxy_get self key w) as [(Ht & Ha & Hh) Hn].
  by split_and!.
Qed.

(** ** The first access to a key *)

(** X2. The first write to a key that has no accessor yet is a read: the
    value is ignored, so the write gives the outcome and the store of the
    read, raises no editability error and leaves every heap object as it
    is. *)
Theorem first_write_is_a_read (w : world) (self : guid) (key : string)
    (v : value) :
  forwardable key →
  key ∉ accessors (this w self) →
  proxy_set self key v w = proxy_get self key w ∧
  (∀ q k, fst (proxy_set self key v w) ≠ Throw (NotEditable q k)) ∧
  (∀ l o, heap w !! l = Some o →
          heap (snd (proxy_set self key v w)) !! l = Some o).
Proof.
  intros Hf Hk.
  assert (proxy_set self key v w = proxy_get self key w) as E.
  { rewrite (proxy_set_forwardable _ _ _ _ Hf), (proxy_get_forwardable _ _ _ Hf).
    by rewrite bool_decide_eq_false_2. }
  rewrite E. destruct (quiet_proxy_get self key w) as [(_ & _ & Hh) Hn].
  by split_and!.
Qed.

(** X3. The first read of a key that has no accessor yet installs one
    accessor for it on the receiver, at the end of its accessors, and adds
    the key to the registry; the accessors of the other proxies stay as they
    are. *)
Theorem first_read_installs (w : world) (self : guid) (key : string) :
  forwardable key →
  key ∉ accessors (this w self) →
  let w' := snd (proxy_get self key w) in
  accessors (this w' self) = (accessors (this w self) ++ [key])%list ∧
  _proxiedProperties w' = Set_add key (_proxiedProperties w) ∧
  key ∈ _proxiedProperties w' ∧
  (∀ q, q ≠ self → accessors (this w' q) = accessors (this w q)).
Proof.
  intros Hf Hk w'. subst w'. rewrite (proxy_get_forwardable _ _ _ Hf).
  rewrite bool_decide_eq_false_2 by done.
  destruct (keeps_get_forwarded self key (install self key w)) as [Hr Ha].
  split_and!.
  - by rewrite Ha, install_this.
  - by rewrite Hr.
  - rewrite Hr. apply elem_of_Set_add. by left.
  - intros q Hq. by rewrite Ha, install_other.
Qed.

Lemma cacheable_memo self key m w x w' :
  cacheable self key m w = (Ok x, w') → cache (this w' self) !! key = Some x.
Proof.
  unfold cacheable. destruct (cache (this w self) !! key) eqn:Hc.
  - by intros [= -> <-].
  - destruct (m w) as [[v|e] w1]; [|done]. intros [= -> <-].
    apply memoize_hit.
Qed.

(** X4. A read of a forwarded key that returned a value is repeatable: the
    same read made again at once returns the same value and leaves the
    store as it is. *)
Theorem read_is_repeatable (w : world) (self : guid) (key : string)
    (x : value) :
  forwardable key →
  fst (proxy_get self key w) = Ok x →
  let w' := snd (proxy_get self key w) in
  proxy_get self key w' = (Ok x, w').
Proof.
  intros Hf Hx w'. subst w'. revert Hx.
  rewrite (proxy_get_forwardable _ _ _ Hf).
  assert (∀ w0, key ∈ accessors (this w0 self) →
            fst (get_forwarded self key w0) = Ok x →
            proxy_get self key (snd (get_forwarded self key w0))
            = (Ok x, snd (get_forwarded self key w0))) as Hgo.
  { intros w0 Hk Hx. destruct (get_forwarded self key w0) as [r w1] eqn:E.
    simpl in *. subst r.
    rewrite (proxy_get_forwardable _ _ _ Hf).
    destruct (keeps_get_forwarded self key w0) as [_ Ha]. rewrite E in Ha.
    simpl in Ha. rewrite bool_decide_eq_true_2 by (by rewrite Ha).
    apply get_forwarded_hit. by eapply cacheable_memo. }
  case_bool_decide as Hk; intros Hx; apply Hgo; try done.
  apply install_accessors.
Qed.

(** ** The registry *)

Lemma Set_add_prefix key s : s `prefix_of` Set_add key s.
Proof.
  unfold Set_add. case_bool_decide; [done|]. by apply prefix_app_r.
Qed.

Lemma NoDup_Set_add key s : NoDup s → NoDup (Set_add key s).
Proof.
  intros Hs. unfold Set_add. case_bool_decide as Hk; [done|].
  apply NoDup_app. split_and!; [done| |apply NoDup_singleton].
  intros k Hk' ->%list_elem_of_singleton. done.
Qed.

Lemma proxy_get_registry self key w :
  _proxiedProperties (snd (proxy_get self key w)) = _proxiedProperties w ∨
  _proxiedProperties (snd (proxy_get self key w))
  = Set_add key (_proxiedProperties w).
Proof.
  unfold proxy_get.
  destruct (String.eqb key "content"); [left; apply keeps_gets|].
  destruct (String.eqb key "allowsMultipleContent"); [left; apply keeps_gets|].
  destruct (String.eqb key "isEditable"); [left; apply keeps_gets|].
  destruct (String.eqb key "hasContent"); [left; apply keeps_hasContent|].
  destruct (String.eqb key "observableContent");
    [left; apply keeps_get_observableContent|].
  unfold bind, gets. case_bool_decide as Hk.
  - left. apply keeps_get_forwarded.
  - right. rewrite unknownProperty_eq.
    by destruct (keeps_get_forwarded self key (install self key w)) as [-> _].
Qed.

Lemma keeps_set_attribute f (v : value) :
  (∀ w, stable w (f w)) → keeps (modify f ;;; ret v).
Proof.
  intros Hf. apply keeps_bind; [by apply keeps_modify|]. intros _.
  apply keeps_ret.
Qed.

Lemma proxy_set_registry self key v w :
  _proxiedProperties (snd (proxy_set self key v w)) = _proxiedProperties w ∨
  _proxiedProperties (snd (proxy_set self key v w))
  = Set_add key (_proxiedProperties w).
Proof.
  unfold proxy_set.
  destruct (String.eqb key "content");
    [left; apply keeps_set_attribute, stable_set_content|].
  destruct (String.eqb key "allowsMultipleContent");
    [left; apply keeps_set_attribute, stable_set_allowsMultipleContent|].
  destruct (String.eqb key "isEditable");
    [left; apply keeps_set_attribute, stable_set_isEditable|].
  destruct (String.eqb key "hasContent"); [left; apply keeps_hasContent|].
  destruct (String.eqb key "observableContent");
    [left; apply keeps_get_observableContent|].
  unfold bind, gets. case_bool_decide as Hk.
  - left. apply keeps_set_forwarded.
  - right. rewrite unknownProperty_eq.
    by destruct (keeps_get_forwarded self key (install self key w)) as [-> _].
Qed.

(** X5. The registry only grows and stays free of duplicates: after a read
    or a write of any key, and after [destroy()], the registry of before is
    a prefix of the registry of after, and [destroy()] leaves it as it
    is. *)
Theorem registry_only_grows (w : world) (self : guid) (key : string)
    (v : value) :
  NoDup (_proxiedProperties w) →
  let after_get := _proxiedProperties (snd (proxy_get self key w)) in
  let after_set := _proxiedProperties (snd (proxy_set self key v w)) in
  _proxiedProperties w `prefix_of` after_get ∧ NoDup after_get ∧
  _proxiedProperties w `prefix_of` after_set ∧ NoDup after_set ∧
  _proxiedProperties (snd (destroy self w)) = _proxiedProperties w.
Proof.
  intros Hnd after_get after_set. subst after_get after_set.
  split_and!.
  - destruct (proxy_get_registry self key w) as [-> | ->];
      [done|apply Set_add_prefix].
  - destruct (proxy_get_registry self key w) as [-> | ->];
      [done|by apply NoDup_Set_add].
  - destruct (proxy_set_registry self key v w) as [-> | ->];
      [done|apply Set_add_prefix].
  - destruct (proxy_set_registry self key v w) as [-> | ->];
      [done|by apply NoDup_Set_add].
  - apply keeps_destroy.
Qed.

(** ** The resolver *)

(** X6. In single-target mode the resolver never yields a collection:
    whatever the content, when allowsMultipleContent is falsy the target is
    not enumerable. *)
Theorem single_mode_never_collection (h : gmap loc object) (p : proxy) :
  truthy (allowsMultipleContent p) = false →
  SC_isEnumerable h (observableContent h p) = false.
Proof.
  intros Hm. destruct (SC_isEnumerable h (content p)) eqn:E.
  - rewrite (observableContent_collection h p E). cbv zeta. rewrite Hm.
    cbn [negb andb].
    set (c := if strict_eq _ (VNum 1) then _ else _).
    destruct (SC_isEnumerable h c) eqn:Ec; [|done].
    by apply falsy_not_enumerable.
  - by rewrite (observableContent_not_collection h p E).
Qed.

Lemma observableContent_of_fresh self w :
  cache (this w self) !! "observableContent" = None →
  observableContent_of w self = observableContent (heap w) (this w self).
Proof. intros Hc. unfold observableContent_of. by rewrite Hc. Qed.

Lemma hasContent_eq self w :
  hasContent self w
  = (Ok (VBool (negb (SC_none (observableContent_of w self)))),
     memo_observableContent self w).
Proof. unfold hasContent, bind. by rewrite get_observableContent_eq. Qed.

(** A read that evaluates the accessor, by the kind of target. *)
Lemma evaluated_read self key w :
  forwardable key →
  cache (this w self) !! key = None →
  let t := observableContent_of w self in
  (SC_none t = true → fst (proxy_get self key w) = Ok VUndefined) ∧
  (SC_none t = false → SC_isEnumerable (heap w) t = false →
     fst (proxy_get self key w) = Ok (SC_get (heap w) t key)).
Proof.
  intros Hf Hc t. subst t.
  destruct (proxy_get_miss self key w Hf Hc) as (w0 & Hh & Ho & ->).
  split.
  - intros Hn. rewrite forwarder_absent by (by rewrite Ho). done.
  - intros Hn He. rewrite forwarder_read_scalar; rewrite ?Ho, ?Hh; done.
Qed.

(** ** Writes to the attributes *)

Lemma proxy_set_content self c w :
  proxy_set self "content" c w = (Ok c, set_content self c w).
Proof. reflexivity. Qed.

Lemma proxy_set_allowsMultipleContent self v w :
  proxy_set self "allowsMultipleContent" v w
  = (Ok v, set_allowsMultipleContent self v w).
Proof. reflexivity. Qed.

Lemma set_allowsMultipleContent_this self v w :
  this (set_allowsMultipleContent self v w) self
  = Proxy (content (this w self)) v (isEditable (this w self))
      (accessors (this w self)) ∅.
Proof. unfold set_allowsMultipleContent. apply this_with_this. Qed.

(** A read on a proxy that has nothing memoized, by the kind of target the
    resolver gives. *)
Lemma unmemoized_read self key w :
  forwardable key →
  (∀ k, cache (this w self) !! k = None) →
  let t := observableContent (heap w) (this w self) in
  observableContent_of w self = t ∧
  (SC_none t = true → fst (proxy_get self key w) = Ok VUndefined) ∧
  (SC_none t = false → SC_isEnumerable (heap w) t = false →
     fst (proxy_get self key w) = Ok (SC_get (heap w) t key)).
Proof.
  intros Hf Hc t. subst t.
  destruct (evaluated_read self key w Hf (Hc key)) as [H1 H2].
  rewrite (observableContent_of_fresh _ _ (Hc "observableContent")) in H1, H2.
  split_and!; [by apply observableContent_of_fresh|done..].
Qed.

(** X9. A write to content or to allowsMultipleContent is seen by the next
    read, whatever was memoized before: the attribute holds the value
    written, the target is what the resolver gives for the attributes as
    they now are, and a forwarded key reads undefined when that target is
    null or undefined and [get(target, key)] when it is a scalar. The heap
    is as before. *)
Theorem attribute_write_is_seen (w : world) (self : guid) (key attr : string)
    (v : value) :
  forwardable key →
  attr = "content" ∨ attr = "allowsMultipleContent" →
  let w' := snd (proxy_set self attr v w) in
  let t := observableContent (heap w) (this w' self) in
  fst (proxy_get self attr w') = Ok v ∧
  heap w' = heap w ∧
  observableContent_of w' self = t ∧
  (SC_none t = true → fst (proxy_get self key w') = Ok VUndefined) ∧
  (SC_none t = false → SC_isEnumerable (heap w) t = false →
     fst (proxy_get self key w') = Ok (SC_get (heap w) t key)).
Proof.
  intros Hf [-> | ->] w' t; subst w' t.
  - rewrite proxy_set_content. simpl snd.
    destruct (set_content_spec self v w) as (Hh&_&_&_&Hc&_&_&_&Hk).
    destruct (unmemoized_read self key (set_content self v w) Hf Hk)
      as (Ho & Hnone & Hscalar).
    rewrite Hh in Ho, Hnone, Hscalar. split_and!; try done.
    unfold proxy_get, gets. simpl. by rewrite Hc.
  - rewrite proxy_set_allowsMultipleContent. simpl snd.
    assert (∀ k, cache (this (set_allowsMultipleContent self v w) self) !! k
                 = None) as Hk
      by (intros k; by rewrite set_allowsMultipleContent_this).
    destruct (unmemoized_read self key (set_allowsMultipleContent self v w)
                Hf Hk) as (Ho & Hnone & Hscalar).
    split_and!; try done.
    unfold proxy_get, gets. simpl. by rewrite set_allowsMultipleContent_this.
Qed.

(** ** Single items and many items *)

(** X7. When content is set to a collection of exactly one item that is
    itself a scalar, neither null nor undefined, the proxy manages that
    item, whatever allowsMultipleContent is and whatever was memoized
    before: the item is the target, hasContent is true, a forwarded key
    reads [get(item, key)], and a write of a value other than undefined
    through the installed accessor of an editable proxy returns the value
    and performs the one call [set(item, key, v)]. *)
Theorem single_item_is_the_target (w : world) (self : guid) (key : string)
    (v c x : value) :
  forwardable key →
  SC_isEnumerable (heap w) c = true →
  SC_get (heap w) c "length" = VNum 1 →
  SC_get (heap w) c "firstObject" = x →
  SC_none x = false →
  SC_isEnumerable (heap w) x = false →
  let w1 := snd (proxy_set self "content" c w) in
  let written := proxy_set self key v w1 in
  observableContent_of w1 self = x ∧
  fst (hasContent self w1) = Ok (VBool true) ∧
  fst (proxy_get self key w1) = Ok (SC_get (heap w) x key) ∧
  (key ∈ accessors (this w self) → v ≠ VUndefined →
     truthy (isEditable (this w self)) = true →
     fst written = Ok v ∧
     heap (snd written) = SC_set (heap w) x key v ∧
     trace (snd written) = (trace w1 ++ [SetCalled x key v])%list).
Proof.
  intros Hf He Hlen Hfirst Hn Hx w1 written. subst w1 written.
  rewrite proxy_set_content. simpl snd.
  destruct (set_content_spec self c w) as (Hh&_&_&_&Hc&_&Hed&Ha&Hk).
  assert (observableContent_of (set_content self c w) self = x) as Ht.
  { rewrite (observableContent_of_fresh _ _ (Hk "observableContent")), Hh.
    rewrite observableContent_collection by (by rewrite Hc). cbv zeta.
    rewrite Hc, Hlen, Hfirst. simpl. by rewrite Hx, andb_false_r. }
  split_and!.
  - done.
  - by rewrite hasContent_eq, Ht, Hn.
  - destruct (evaluated_read self key _ Hf (Hk key)) as [_ Hr].
    rewrite Ht, Hh in Hr. by apply Hr.
  - intros Hacc Hv Hedit. rewrite (proxy_set_forwardable _ _ _ _ Hf).
    rewrite bool_decide_eq_true_2 by (by rewrite Ha).
    rewrite set_forwarded_eq, forwarder_write_scalar;
      rewrite ?Ht, ?Hh, ?Hed; try done.
    simpl. split_and!; [done..|].
    by destruct (memo_observableContent_same self (set_content self c w))
      as (_ & _ & -> & _).
Qed.

(** X8. When content is set to a collection whose length is not 1 while
    allowsMultipleContent is falsy, it is treated like null content,
    whatever was memoized before: the target is null, hasContent is false,
    every forwarded key reads undefined, and a write to a forwarded key
    returns undefined, calls nothing and leaves the heap as it is. *)
Theorem many_items_are_no_content (w : world) (self : guid) (key : string)
    (v c : value) (n : Z) :
  forwardable key →
  SC_isEnumerable (heap w) c = true →
  SC_get (heap w) c "length" = VNum n →
  n ≠ 1%Z →
  truthy (allowsMultipleContent (this w self)) = false →
  let w1 := snd (proxy_set self "content" c w) in
  let written := proxy_set self key v w1 in
  observableContent_of w1 self = VNull ∧
  fst (hasContent self w1) = Ok (VBool false) ∧
  fst (proxy_get self key w1) = Ok VUndefined ∧
  fst written = Ok VUndefined ∧
  heap (snd written) = heap w ∧
  trace (snd written) = trace w1.
Proof.
  intros Hf He Hlen Hn Hflag w1 written. subst w1 written.
  rewrite proxy_set_content. simpl snd.
  destruct (set_content_spec self c w) as (Hh&_&_&_&Hc&Hm&_&_&Hk).
  assert (observableContent_of (set_content self c w) self = VNull) as Ht.
  { rewrite (observableContent_of_fresh _ _ (Hk "observableContent")), Hh.
    rewrite observableContent_collection by (by rewrite Hc). cbv zeta.
    rewrite Hc, Hm, Hlen, Hflag.
    assert (strict_eq (VNum n) (VNum 1) = false) as ->
      by (apply strict_eq_false; congruence).
    rewrite orb_true_r. simpl.
    by rewrite (falsy_not_enumerable (heap w) VNull). }
  assert (fst (proxy_get self key (set_content self c w)) = Ok VUndefined)
    as Hread.
  { destruct (evaluated_read self key _ Hf (Hk key)) as [Hr _].
    rewrite Ht in Hr. by apply Hr. }
  split_and!; try done.
  - by rewrite hasContent_eq, Ht.
  - rewrite (proxy_set_forwardable _ _ _ _ Hf). case_bool_decide.
    + by rewrite set_forwarded_eq, forwarder_absent by (by rewrite Ht).
    + rewrite (proxy_get_forwardable _ _ _ Hf) in Hread.
      by rewrite bool_decide_eq_false_2 in Hread.
  - rewrite (proxy_set_forwardable _ _ _ _ Hf). case_bool_decide.
    + rewrite set_forwarded_eq, forwarder_absent by (by rewrite Ht).
      simpl. by rewrite heap_memo_observableContent.
    + rewrite (get_forwarded_miss _ _ _)
        by (rewrite install_this; apply Hk).
      rewrite forwarder_absent
        by (by rewrite install_observableContent_of, Ht).
      simpl. by rewrite heap_memo_observableContent.
  - rewrite (proxy_set_forwardable _ _ _ _ Hf). case_bool_decide.
    + rewrite set_forwarded_eq, forwarder_absent by (by rewrite Ht).
      simpl. by destruct (memo_observableContent_same self
                            (set_content self c w)) as (_ & _ & -> & _).
    + rewrite (get_forwarded_miss _ _ _)
        by (rewrite install_this; apply Hk).
      rewrite forwarder_absent
        by (by rewrite install_observableContent_of, Ht).
      simpl. by destruct (memo_observableContent_same self
                            (install self key (set_content self c w)))
        as (_ & _ & -> & _).
Qed.

(** ** destroy, continued *)

(** X10. [destroy()] changes no proxy other than the receiver (a proxy that
    shares the content keeps it) and leaves the registry and the accessors,
    allowsMultipleContent and isEditable of the receiver as they are; on the
    content it makes at most the one call of its destroy, and when the
    target has no callable destroy the heap is as before. *)
Theorem destroy_touches_only_the_receiver (w : world) (self : guid) :
  let w1 := snd (destroy self w) in
  let t := observableContent_of w self in
  _proxiedProperties w1 = _proxiedProperties w ∧
  (∀ q, q ≠ self → this w1 q = this w q) ∧
  accessors (this w1 self) = accessors (this w self) ∧
  allowsMultipleContent (this w1 self) = allowsMultipleContent (this w self) ∧
  isEditable (this w1 self) = isEditable (this w self) ∧
  (∀ target key v, SetCalled target key v ∉ drop (length (trace w)) (trace w1)) ∧
  (∀ target key v,
     SetEachCalled target key v ∉ drop (length (trace w)) (trace w1)) ∧
  (has_destroy (heap w) t = false → heap w1 = heap w).
Proof.
  intros w1 t. subst w1 t. rewrite destroy_eq. cbv zeta. simpl snd.
  set (wm := match observableContent_of w self with
             | VRef l => _ | _ => _ end).
  destruct (memo_observableContent_same self w)
    as (Hh & Hr & Htr & Hq & _ & Hm & He & Ha).
  assert (heap wm = heap w ∧ _proxiedProperties wm = _proxiedProperties w ∧
          (∀ q, this wm q = this (memo_observableContent self w) q) ∧
          ∃ called, trace wm = (trace w ++ called)%list ∧
                    ∀ e, e ∈ called → ∃ l, e = Destroyed l)
    as (Hh' & Hr' & Hq' & called & Htr' & Hcalled).
  { subst wm. destruct (observableContent_of w self) as [| | | | |l];
      try (split_and!; try done; exists []; rewrite app_nil_r;
           split; [done|by intros e ?%elem_of_nil]).
    destruct (has_destroy _ _).
    - split_and!; try done. exists [Destroyed l]. simpl. rewrite Htr.
      split; [done|]. intros e ->%list_elem_of_singleton. eauto.
    - split_and!; try done. exists []. rewrite app_nil_r.
      split; [done|by intros e ?%elem_of_nil]. }
  destruct (set_content_spec self VNull wm)
    as (Hh2 & Hr2 & Htr2 & Hq2 & _ & Hm2 & He2 & Ha2 & _).
  assert (∀ e, e ∈ drop (length (trace w)) (trace (set_content self VNull wm)) →
               (∃ l, e = Destroyed l) ∨ ∃ k, e = Notified self k) as Hnew.
  { intros e. rewrite Htr2, Htr', <- app_assoc, drop_app_length.
    intros [Hin|Hin]%elem_of_app; [left; auto|right].
    apply list_elem_of_fmap in Hin as (k & -> & _). eauto. }
  split_and!; try congruence.
  - intros q Hne. by rewrite (Hq2 q Hne), Hq', (Hq q Hne).
  - intros target key v [[l E]|[k E]]%Hnew; discriminate.
  - intros target key v [[l E]|[k E]]%Hnew; discriminate.
Qed.

(** X11. After [destroy()] every forwarded key reads undefined, whatever
    was memoized for it before. *)
Theorem read_after_destroy (w : world) (self : guid) (key : string) :
  forwardable key →
  fst (proxy_get self key (snd (destroy self w))) = Ok VUndefined.
Proof.
  intros Hf. rewrite destroy_eq. cbv zeta. simpl snd.
  set (wm := match observableContent_of w self with
             | VRef l => _ | _ => _ end).
  destruct (set_content_spec self VNull wm) as (_&_&_&_&Hc&_&_&_&Hk).
  destruct (unmemoized_read self key (set_content self VNull wm) Hf Hk)
    as (_ & Hnone & _).
  apply Hnone. rewrite observableContent_not_collection; rewrite Hc; [done|].
  by apply falsy_not_enumerable.
Qed.

(** ** Writes through the accessor *)

Lemma obj_set_idem o key v : obj_set (obj_set o key v) key v = obj_set o key v.
Proof. unfold obj_set. simpl. by rewrite insert_insert_eq. Qed.

Lemma obj_get_set_other o key v k :
  k ≠ key → obj_get (obj_set o key v) k = obj_get o k.
Proof. intros Hk. unfold obj_get, obj_set. simpl. by rewrite lookup_insert_ne. Qed.

Lemma obj_get_set_plain o key v :
  elems o = None → obj_get (obj_set o key v) key = v.
Proof. intros He. unfold obj_get, obj_set. simpl. by rewrite He, lookup_insert_eq. Qed.

Lemma obj_get_set_own o key v :
  key ∉ ["isEnumerable"; "length"; "firstObject"] →
  obj_get (obj_set o key v) key = v.
Proof.
  rewrite !not_elem_of_cons. intros (H1 & H2 & H3 & _).
  apply String.eqb_neq in H1, H2, H3.
  unfold obj_get, obj_set. simpl. rewrite H1, H2, H3, lookup_insert_eq.
  by destruct (elems o).
Qed.

Lemma SC_set_lookup h x key v l :
  SC_set h x key v !! l
  = if bool_decide (x = VRef l) then (fun o => obj_set o key v) <$> h !! l
    else h !! l.
Proof.
  case_bool_decide as Hx.
  - subst x. simpl. destruct (h !! l) eqn:E; [|by rewrite E].
    by rewrite lookup_insert_eq.
  - by apply SC_set_other.
Qed.

Lemma setEach_lookup es h key v l :
  fold_left (fun h x => SC_set h x key v) es h !! l
  = if bool_decide (VRef l ∈ es) then (fun o => obj_set o key v) <$> h !! l
    else h !! l.
Proof.
  revert h. induction es as [|x es IH]; intros h; simpl.
  - done.
  - rewrite IH, SC_set_lookup. destruct (decide (x = VRef l)) as [->|Hx].
    + rewrite (bool_decide_eq_true_2 (VRef l = VRef l)) by done.
      rewrite (bool_decide_eq_true_2 (VRef l ∈ VRef l :: es)) by (by left).
      destruct (bool_decide (VRef l ∈ es)); [|done].
      destruct (h !! l); [|done]. simpl. by rewrite obj_set_idem.
    + rewrite (bool_decide_eq_false_2 (x = VRef l)) by done.
      rewrite (bool_decide_ext (VRef l ∈ x :: es) (VRef l ∈ es)); [done|].
      rewrite elem_of_cons. split; [|by right]. by intros [?|?].
Qed.

(** X12. In multi-target mode a write through the installed accessor of an
    editable proxy returns the value and sets the key on every element that
    is a heap object, once, leaving its other properties, its elements and
    its destroy member as they are; every object that is not an element is
    as before. *)
Theorem write_fans_out (w : world) (self : guid) (key : string) (v : value)
    (es : list value) :
  forwardable key →
  key ∈ accessors (this w self) →
  v ≠ VUndefined →
  truthy (isEditable (this w self)) = true →
  elements (heap w) (observableContent_of w self) = Some es →
  let w' := snd (proxy_set self key v w) in
  fst (proxy_set self key v w) = Ok v ∧
  (∀ l o, VRef l ∈ es → heap w !! l = Some o →
          heap w' !! l = Some (obj_set o key v)) ∧
  (∀ l, VRef l ∉ es → heap w' !! l = heap w !! l).
Proof.
  intros Hf Hk Hv Hed Hes w'. subst w'.
  rewrite (proxy_set_forwardable _ _ _ _ Hf).
  rewrite bool_decide_eq_true_2 by done.
  rewrite set_forwarded_eq, (forwarder_write_collection _ _ _ _ _ Hv Hed Hes).
  simpl. split_and!; [done| |].
  - intros l o Hl Ho. rewrite setEach_lookup, bool_decide_eq_true_2 by done.
    by rewrite Ho.
  - intros l Hl. by rewrite setEach_lookup, bool_decide_eq_false_2.
Qed.

Lemma not_enumerable_plain h l o :
  h !! l = Some o → SC_isEnumerable h (VRef l) = false → elems o = None.
Proof.
  intros Ho He. destruct (elems o) eqn:E; [|done].
  unfold SC_isEnumerable, SC_get, obj_get in He. by rewrite Ho, E in He.
Qed.

Lemma notify_observableContent_of self key w :
  key ≠ "observableContent" →
  observableContent_of (notifyPropertyChange self key w) self
  = match cache (this w self) !! "observableContent" with
    | Some x => x
    | None => observableContent (heap w) (this w self)
    end.
Proof.
  intros Hk. destruct (notify_one self key w) as (Hh & _ & _ & _ & Hp).
  unfold observableContent_of. rewrite Hp, Hh. simpl.
  rewrite lookup_delete_ne by done.
  by destruct (cache (this w self) !! "observableContent").
Qed.

(** What the store looks like after a write that went through the accessor:
    the target is memoized, and so is the value under the key. *)
Lemma written_world self key v h e w :
  key ≠ "observableContent" →
  let w' :=
    memoize self key v (emit e (with_heap h (memo_observableContent self w))) in
  heap w' = h ∧
  accessors (this w' self) = accessors (this w self) ∧
  cache (this w' self) !! key = Some v ∧
  observableContent_of (notifyPropertyChange self key w') self
  = observableContent_of w self ∧
  heap (notifyPropertyChange self key w') = h ∧
  accessors (this (notifyPropertyChange self key w') self)
  = accessors (this w self) ∧
  cache (this (notifyPropertyChange self key w') self) !! key = None.
Proof.
  intros Hk w'.
  destruct (memo_observableContent_same self w) as (_&_&_&_&_&_&_&Ha).
  destruct (memoize_same self key v
              (emit e (with_heap h (memo_observableContent self w))))
    as (Hh'&_&_&_&_&_&_&Ha').
  destruct (notify_one self key w') as (Hh2 & _ & _ & _ & Hp2).
  assert (cache (this w' self) !! "observableContent"
          = Some (observableContent_of w self)) as Hmemo.
  { subst w'. rewrite memoize_other by done.
    apply (memo_observableContent_hit self w). }
  split_and!.
  - done.
  - subst w'. rewrite Ha'. exact Ha.
  - apply memoize_hit.
  - rewrite notify_observableContent_of by done. by rewrite Hmemo.
  - by rewrite Hh2.
  - rewrite Hp2. simpl. subst w'. rewrite Ha'. exact Ha.
  - rewrite Hp2. simpl. apply lookup_delete_eq.
Qed.

Lemma forwardable_not_observableContent key :
  forwardable key → key ≠ "observableContent".
Proof.
  intros (_&_&_&_&E)%forwardable_eqb. by apply String.eqb_neq.
Qed.

(** X13. A value written to a scalar target is read back: after a write
    through the installed accessor of an editable proxy whose target is a
    heap object and not a collection, the same key reads the value written,
    at once and also once the value memoized for the key has been dropped,
    provided the key is not [isEnumerable]. *)
Theorem write_then_read_scalar (w : world) (self : guid) (key : string)
    (v : value) (l : loc) (o : object) :
  forwardable key →
  key ∈ accessors (this w self) →
  v ≠ VUndefined →
  truthy (isEditable (this w self)) = true →
  observableContent_of w self = VRef l →
  heap w !! l = Some o →
  SC_isEnumerable (heap w) (VRef l) = false →
  key ≠ "isEnumerable" →
  ∃ w', proxy_set self key v w = (Ok v, w') ∧
        proxy_get self key w' = (Ok v, w') ∧
        fst (proxy_get self key (notifyPropertyChange self key w')) = Ok v.
Proof.
  intros Hf Hk Hv Hed Ht Ho He Hkey.
  pose proof (forwardable_not_observableContent key Hf) as Hko.
  rewrite (proxy_set_forwardable _ _ _ _ Hf).
  rewrite bool_decide_eq_true_2 by done.
  rewrite set_forwarded_eq, forwarder_write_scalar; rewrite ?Ht; try done.
  eexists. split; [done|].
  destruct (written_world self key v (SC_set (heap w) (VRef l) key v)
              (SetCalled (VRef l) key v) w Hko)
    as (Hh & Ha & Hc & Ho' & Hh' & Ha' & Hc').
  split.
  - rewrite (proxy_get_forwardable _ _ _ Hf).
    rewrite bool_decide_eq_true_2 by (by rewrite Ha).
    by apply get_forwarded_hit.
  - destruct (evaluated_read self key _ Hf Hc') as [_ Hr].
    rewrite Ho', Ht, Hh' in Hr. rewrite Hr.
    + f_equal. simpl. rewrite Ho, lookup_insert_eq.
      apply obj_get_set_plain. by eapply not_enumerable_plain.
    + done.
    + unfold SC_isEnumerable. simpl. rewrite Ho, lookup_insert_eq.
      rewrite obj_get_set_other by done.
      unfold SC_isEnumerable in He. simpl in He. by rewrite Ho in He.
Qed.

Lemma elements_after_setEach es' h key v c es :
  elements h c = Some es →
  elements (fold_left (fun h x => SC_set h x key v) es' h) c = Some es.
Proof.
  destruct c as [| | | | |lc]; try done. simpl. rewrite setEach_lookup.
  destruct (h !! lc) as [oc|]; [|done]. simpl. intros He.
  by destruct (bool_decide _).
Qed.

Lemma gathered_after_setEach es h key v x :
  key ∉ ["isEnumerable"; "length"; "firstObject"] →
  x ∈ es →
  (∃ l o, x = VRef l ∧ h !! l = Some o) →
  SC_get (fold_left (fun h x => SC_set h x key v) es h) x key = v.
Proof.
  intros Hkey Hx (l & o & -> & Ho). simpl.
  rewrite setEach_lookup, bool_decide_eq_true_2, Ho by done. simpl.
  by apply obj_get_set_own.
Qed.

(** X14. A value written in multi-target mode is read back: after a write
    through the installed accessor of an editable proxy whose target is a
    collection of at least one element, all of them heap objects, the same
    key reads the single value written, at once and also once the value
    memoized for the key has been dropped, provided the key is none of
    [isEnumerable], [length] and [firstObject]. *)
Theorem write_then_read_collection (w : world) (self : guid) (key : string)
    (v : value) (es : list value) :
  forwardable key →
  key ∈ accessors (this w self) →
  v ≠ VUndefined →
  truthy (isEditable (this w self)) = true →
  elements (heap w) (observableContent_of w self) = Some es →
  es ≠ [] →
  (∀ x, x ∈ es → ∃ l o, x = VRef l ∧ heap w !! l = Some o) →
  key ∉ ["isEnumerable"; "length"; "firstObject"] →
  ∃ w', proxy_set self key v w = (Ok v, w') ∧
        proxy_get self key w' = (Ok v, w') ∧
        fst (proxy_get self key (notifyPropertyChange self key w')) = Ok v.
Proof.
  intros Hf Hk Hv Hed Hes Hne Hlive Hkey.
  pose proof (forwardable_not_observableContent key Hf) as Hko.
  rewrite (proxy_set_forwardable _ _ _ _ Hf).
  rewrite bool_decide_eq_true_2 by done.
  rewrite set_forwarded_eq, (forwarder_write_collection _ _ _ _ _ Hv Hed Hes).
  eexists. split; [done|].
  set (h' := fold_left (fun h x => SC_set h x key v) es (heap w)).
  destruct (written_world self key v h'
              (SetEachCalled (observableContent_of w self) key v) w Hko)
    as (Hh & Ha & Hc & Ho' & Hh' & Ha' & Hc').
  split.
  - rewrite (proxy_get_forwardable _ _ _ Hf).
    rewrite bool_decide_eq_true_2 by (by rewrite Ha).
    by apply get_forwarded_hit.
  - rewrite (proxy_get_forwardable _ _ _ Hf).
    rewrite bool_decide_eq_true_2 by (by rewrite Ha').
    rewrite (get_forwarded_miss _ _ _ Hc').
    rewrite (forwarder_read_collection _ _ _ es)
      by (rewrite Ho', Hh'; by apply elements_after_setEach).
    cbv zeta. rewrite Hh'.
    assert (∀ y, y ∈ gathered h' es key → y = v) as Hall.
    { intros y (x & -> & Hx)%list_elem_of_fmap.
      apply gathered_after_setEach; auto. }
    destruct es as [|x0 es0]; [done|].
    assert (SC_get h' x0 key = v) as Hx0
      by (apply Hall, list_elem_of_fmap; exists x0; split; [done|by left]).
    change (gathered h' (x0 :: es0) key)
      with (SC_get h' x0 key :: gathered h' es0 key) in *.
    rewrite bool_decide_eq_true_2.
    + simpl. by rewrite Hx0.
    + apply uniq_length_1. exists v. split; [rewrite Hx0; by left|done].
Qed.

(** ** What a read depends on *)

Lemma forwarder_read_liar self key w :
  SC_isEnumerable (heap w) (observableContent_of w self) = true →
  elements (heap w) (observableContent_of w self) = None →
  forwarder self key VUndefined w
  = (Throw TypeError, memo_observableContent self w).
Proof.
  intros He Hes.
  assert (SC_none (observableContent_of w self) = false) as Hn
    by (apply isEnumerable_truthy in He;
        destruct (observableContent_of w self); done).
  unfold forwarder, bind. rewrite get_observableContent_eq.
  rewrite SC_none_strict, Hn. simpl.
  destruct (memo_observableContent_same self w) as (Hh & _).
  unfold gets. rewrite Hh, He. unfold getEach. by rewrite Hh, Hes.
Qed.

Lemma forwarder_read_fst self key w :
  fst (forwarder self key VUndefined w)
  = read_result (heap w) (observableContent_of w self) key.
Proof.
  unfold read_result.
  destruct (SC_none (observableContent_of w self)) eqn:Hn;
    [by rewrite forwarder_absent|].
  destruct (SC_isEnumerable (heap w) (observableContent_of w self)) eqn:He;
    [|by rewrite forwarder_read_scalar].
  destruct (elements (heap w) (observableContent_of w self)) as [es|] eqn:Hes;
    [|by rewrite forwarder_read_liar].
  rewrite (forwarder_read_collection _ _ _ _ Hes). cbv zeta.
  destruct (gathered (heap w) es key) as [|x vs]; [done|].
  destruct (bool_decide _); [done|].
  unfold new_array. simpl. by rewrite heap_memo_observableContent.
Qed.

Lemma get_forwarded_fst self key w :
  fst (get_forwarded self key w)
  = match cache (this w self) !! key with
    | Some x => Ok x
    | None => read_result (heap w) (observableContent_of w self) key
    end.
Proof.
  unfold get_forwarded, cacheable. destruct (cache (this w self) !! key); [done|].
  rewrite <- forwarder_read_fst.
  by destruct (forwarder self key VUndefined w) as [[x|e] w1].
Qed.

Lemma proxy_get_fst self key w :
  forwardable key →
  fst (proxy_get self key w)
  = match cache (this w self) !! key with
    | Some x => Ok x
    | None => read_result (heap w) (observableContent_of w self) key
    end.
Proof.
  intros Hf. rewrite (proxy_get_forwardable _ _ _ Hf).
  case_bool_decide; rewrite get_forwarded_fst; [done|].
  by rewrite install_this, install_observableContent_of.
Qed.

Lemma set_isEditable_this self e w :
  this (set_isEditable self e w) self
  = Proxy (content (this w self)) (allowsMultipleContent (this w self)) e
      (accessors (this w self)) (cache (this w self)).
Proof. unfold set_isEditable. apply this_with_this. Qed.

(** X15. isEditable never affects a read: a forwarded key reads the same
    whatever value isEditable is given, and giving isEditable a value
    changes no object, no accessor, no memoized value and announces
    nothing. *)
Theorem reads_ignore_isEditable (w : world) (self : guid) (key : string)
    (e : value) :
  forwardable key →
  let w' := snd (proxy_set self "isEditable" e w) in
  fst (proxy_get self key w') = fst (proxy_get self key w) ∧
  fst (proxy_get self "isEditable" w') = Ok e ∧
  heap w' = heap w ∧ trace w' = trace w ∧
  cache (this w' self) = cache (this w self) ∧
  accessors (this w' self) = accessors (this w self).
Proof.
  intros Hf w'.
  assert (w' = set_isEditable self e w) as -> by reflexivity.
  split_and!.
  - rewrite !(proxy_get_fst _ _ _ Hf).
    unfold observableContent_of. by rewrite set_isEditable_this.
  - unfold proxy_get, gets. simpl. by rewrite set_isEditable_this.
  - done.
  - done.
  - by rewrite set_isEditable_this.
  - by rewrite set_isEditable_this.
Qed.

(** ** The observer, continued *)

(** X16. The observer of content changes nothing but the trace and what the
    receiver has memoized under the keys of the registry: the heap, the
    registry, every other proxy, the attributes and accessors of the
    receiver, and what it has memoized under any other key (its target
    among them) are as before. *)
Theorem contentDidChange_frame (w : world) (self : guid) :
  let w' := contentDidChange self w in
  heap w' = heap w ∧
  _proxiedProperties w' = _proxiedProperties w ∧
  (∀ q, q ≠ self → this w' q = this w q) ∧
  content (this w' self) = content (this w self) ∧
  allowsMultipleContent (this w' self) = allowsMultipleContent (this w self) ∧
  isEditable (this w' self) = isEditable (this w self) ∧
  accessors (this w' self) = accessors (this w self) ∧
  (∀ k, k ∉ _proxiedProperties w →
        cache (this w' self) !! k = cache (this w self) !! k).
Proof.
  intros w'. subst w'. unfold contentDidChange.
  destruct (notify_all self (_proxiedProperties w) w)
    as (Hh & Hr & _ & Hq & Hc & Hm & He & Ha & Hk).
  split_and!; try done.
  intros k Hnot. by rewrite Hk, bool_decide_eq_false_2.
Qed.

(** ** Accessors persist *)

Lemma proxy_get_store self key w :
  stable w (snd (proxy_get self key w)) ∨
  ((key ∉ accessors (this w self)) ∧
   stable (install self key w) (snd (proxy_get self key w))).
Proof.
  unfold proxy_get.
  destruct (String.eqb key "content"); [left; apply keeps_gets|].
  destruct (String.eqb key "allowsMultipleContent"); [left; apply keeps_gets|].
  destruct (String.eqb key "isEditable"); [left; apply keeps_gets|].
  destruct (String.eqb key "hasContent"); [left; apply keeps_hasContent|].
  destruct (String.eqb key "observableContent");
    [left; apply keeps_get_observableContent|].
  unfold bind, gets. case_bool_decide as Hk.
  - left. apply keeps_get_forwarded.
  - right. split; [done|]. rewrite unknownProperty_eq.
    apply keeps_get_forwarded.
Qed.

Lemma proxy_set_store self key v w :
  stable w (snd (proxy_set self key v w)) ∨
  ((key ∉ accessors (this w self)) ∧
   stable (install self key w) (snd (proxy_set self key v w))).
Proof.
  unfold proxy_set.
  destruct (String.eqb key "content");
    [left; apply keeps_set_attribute, stable_set_content|].
  destruct (String.eqb key "allowsMultipleContent");
    [left; apply keeps_set_attribute, stable_set_allowsMultipleContent|].
  destruct (String.eqb key "isEditable");
    [left; apply keeps_set_attribute, stable_set_isEditable|].
  destruct (String.eqb key "hasContent"); [left; apply keeps_hasContent|].
  destruct (String.eqb key "observableContent");
    [left; apply keeps_get_observableContent|].
  unfold bind, gets. case_bool_decide as Hk.
  - left. apply keeps_set_forwarded.
  - right. split; [done|]. rewrite unknownProperty_eq.
    apply keeps_get_forwarded.
Qed.

Lemma install_accessors_prefix self key w q :
  accessors (this w q) `prefix_of` accessors (this (install self key w) q).
Proof.
  destruct (decide (q = self)) as [->|Hne].
  - rewrite install_this. simpl. by apply prefix_app_r.
  - by rewrite install_other.
Qed.

(** X17. Accessors persist: no read or write of any key, and no
    [destroy()], removes or reorders an accessor of any proxy; a content
    swap and [destroy()] leave the accessors exactly as they are. *)
Theorem accessors_persist (w : world) (self q : guid) (key : string)
    (v : value) :
  accessors (this w q)
    `prefix_of` accessors (this (snd (proxy_get self key w)) q) ∧
  accessors (this w q)
    `prefix_of` accessors (this (snd (proxy_set self key v w)) q) ∧
  accessors (this (snd (proxy_set self "content" v w)) q) = accessors (this w q) ∧
  accessors (this (snd (destroy self w)) q) = accessors (this w q).
Proof.
  split_and!.
  - destruct (proxy_get_store self key w) as [[_ Ha]|[_ [_ Ha]]]; rewrite Ha;
      [done|apply install_accessors_prefix].
  - destruct (proxy_set_store self key v w) as [[_ Ha]|[_ [_ Ha]]]; rewrite Ha;
      [done|apply install_accessors_prefix].
  - rewrite proxy_set_content. apply stable_set_content.
  - apply keeps_destroy.
Qed.

End Behaviour.

(** * The properties on the sample stores *)

Section Samples.
#[local] Existing Instance bare_runtime.

Local Ltac decided := apply (bool_decide_unpack _); vm_compute; exact I.

(** C5, as the claim has it, fails: array 6 has length 1 and its sole element
    is array 4, yet with allowsMultipleContent false the resolver yields
    null and not that element. *)
Lemma observableContent_single_nested :
  let p := Proxy (VRef 6) (VBool false) (VBool true) [] ∅ in
  SC_isEnumerable sample_heap (VRef 6) = true ∧
  SC_get sample_heap (VRef 6) "length" = VNum 1 ∧
  SC_get sample_heap (VRef 6) "firstObject" = VRef 4 ∧
  observableContent sample_heap p = VNull ∧
  observableContent sample_heap p ≠ SC_get sample_heap (VRef 6) "firstObject".
Proof. vm_compute. by split_and!. Qed.

Lemma observableContent_single_witness :
  observableContent sample_heap (Proxy (VRef 9) (VBool false) (VBool true) [] ∅)
  = VRef 8.
Proof.
  rewrite (observableContent_single sample_heap (VRef 9) (VBool true) false [] ∅);
    reflexivity.
Defined.

(** C2, as the claim has it, fails: after [status] was read once through
    proxy 1 and then changed on one of the two elements, the elements hold
    "ok" and "fail", yet the read through proxy 1 returns the memoized "ok"
    and not the sequence of both. *)
Lemma forwarded_read_collection_stale :
  fst (proxy_get 1 "status" shared_world) = Ok (VStr "ok") ∧
  observableContent_of stale_world 1 = VRef 4 ∧
  elements (heap stale_world) (VRef 4) = Some [VRef 1; VRef 2] ∧
  gathered (heap stale_world) [VRef 1; VRef 2] "status"
  = [VStr "ok"; VStr "fail"] ∧
  fst (proxy_get 1 "status" stale_world) = Ok (VStr "ok") ∧
  ¬ ∃ l, fst (proxy_get 1 "status" stale_world) = Ok (VRef l).
Proof.
  split_and!; [reflexivity..|].
  intros [l E]. vm_compute in E. discriminate.
Qed.

Lemma forwarded_read_collection_witness :
  fst (proxy_get 1 "status" stale_world) = Ok (VStr "ok") ∧
  fst (proxy_get 1 "status" (sample_world (VRef 4) true true)) = Ok (VStr "ok") ∧
  ∃ l, fst (proxy_get 1 "status" (sample_world (VRef 5) true true)) = Ok (VRef l) ∧
       heap (snd (proxy_get 1 "status" (sample_world (VRef 5) true true)))
       = <[l := array [VStr "ok"; VStr "ok"; VStr "fail"]]> sample_heap.
Proof.
  split_and!.
  - destruct (forwarded_read_collection stale_world 1 "status"
               [VRef 1; VRef 2]) as (Hmemo & _); [decided | reflexivity |].
    apply (Hmemo (VStr "ok")). reflexivity.
  - destruct (forwarded_read_collection (sample_world (VRef 4) true true)
               1 "status" [VRef 1; VRef 2]) as (_ & Hmiss);
      [decided | reflexivity |].
    destruct Hmiss as (_ & Hsame & _); [reflexivity|].
    apply (Hsame (VStr "ok")); [decided|].
    apply Forall_forall. decided.
  - destruct (forwarded_read_collection (sample_world (VRef 5) true true)
               1 "status" [VRef 1; VRef 2; VRef 3]) as (_ & Hmiss);
      [decided | reflexivity |].
    destruct Hmiss as (_ & _ & Hdiffer); [reflexivity|].
    destruct Hdiffer as (l & Hr & _ & Hh).
    + exists (VStr "ok"), (VStr "fail"). split_and!; [decided|decided|discriminate].
    + exists l. split; [exact Hr | exact Hh].
Defined.

(** C3, as the claim has it, fails: on a read-only proxy without content a
    write to the forwarded key [name] raises nothing. *)
Lemma write_not_editable_without_target :
  isEditable (this locked_world 1) = VBool false ∧
  accessors (this locked_world 1) = ["name"] ∧
  fst (proxy_set 1 "name" (VStr "X") locked_world) = Ok VUndefined ∧
  ¬ ∃ w', proxy_set 1 "name" (VStr "X") locked_world
          = (Throw (NotEditable 1 "name"), w').
Proof.
  split_and!; [reflexivity..|].
  intros [w' E]. apply (f_equal fst) in E. vm_compute in E. discriminate.
Qed.

Lemma write_not_editable_throws_witness :
  ∃ w', proxy_set 1 "name" (VStr "X") (forwarding_world (VRef 8) false false)
        = (Throw (NotEditable 1 "name"), w') ∧
        heap w' = sample_heap.
Proof.
  destruct (write_not_editable_throws (forwarding_world (VRef 8) false false)
              1 "name" (VStr "X")) as (w' & E & Hh & _);
    [decided | decided | discriminate | reflexivity | reflexivity |].
  exists w'. split; [exact E | exact Hh].
Defined.

(** C4, as the claim has it, fails: on a proxy without content a write of
    "X" to the forwarded key [name] yields undefined, and so does the next
    read. *)
Lemma write_without_target_forgets :
  observableContent_of idle_world 1 = VNull ∧
  fst (proxy_set 1 "name" (VStr "X") idle_world) = Ok VUndefined ∧
  fst (proxy_get 1 "name" (snd (proxy_set 1 "name" (VStr "X") idle_world)))
  = Ok VUndefined ∧
  fst (proxy_get 1 "name" (snd (proxy_set 1 "name" (VStr "X") idle_world)))
  ≠ Ok (VStr "X").
Proof. split_and!; [reflexivity..|]. vm_compute. discriminate. Qed.

Lemma write_without_target_witness :
  ∃ w', proxy_set 1 "name" (VStr "X") idle_world = (Ok VUndefined, w') ∧
        heap w' = heap idle_world ∧ trace w' = trace idle_world ∧
        proxy_get 1 "name" w' = (Ok VUndefined, w').
Proof.
  apply (write_without_target idle_world 1 "name" (VStr "X"));
    [decided | intros Hk; exfalso; apply Hk; decided | reflexivity].
Defined.

Lemma content_change_notifies_witness :
  let w := forwarding_world (VRef 8) false true in
  trace (snd (proxy_set 1 "content" (VRef 8) w))
  = [Notified 1 "name"; Notified 1 "status"] ∧
  cache (this (snd (proxy_set 1 "content" (VRef 8) w)) 1) !! "status" = None.
Proof.
  destruct (content_change_notifies (forwarding_world (VRef 8) false true)
              1 (VRef 8) "status") as (_ & _ & Hc & Ht & _); [decided|].
  split; [exact Ht | exact Hc].
Defined.

(** C8, at the failing input. One read of [name] on proxy 1 puts [name] in
    the registry that proxy 2 reads as its own: [name] is then a forwarded
    key of proxy 2 without an accessor on proxy 2, and a change of the
    content of proxy 2 announces [name] on proxy 2. *)
Theorem registry_shared_between_instances :
  _proxiedProperties idle_world = ["name"] ∧
  accessors (this idle_world 1) = ["name"] ∧
  accessors (this idle_world 2) = [] ∧
  trace (snd (proxy_set 2 "content" (VRef 8) idle_world)) = [Notified 2 "name"].
Proof. by split_and!. Qed.

Lemma write_scalar_frame_witness :
  let w := forwarding_world (VRef 8) false true in
  let w' := snd (proxy_set 1 "name" (VStr "Bea") w) in
  content (this w' 1) = VRef 8 ∧
  (∀ l, VRef 8 ≠ VRef l → heap w' !! l = sample_heap !! l) ∧
  ∃ o', heap w' !! 8 = Some o' ∧ elems o' = None ∧ destroyable o' = true ∧
        ∀ k, k ≠ "name" → props o' !! k = None.
Proof.
  destruct (write_scalar_frame (forwarding_world (VRef 8) false true)
              1 "name" (VStr "Bea"))
    as (Hc & _ & _ & _ & Hother & _ & Htarget);
    [decided | reflexivity | reflexivity |].
  split_and!; [exact Hc | exact Hother |].
  destruct (Htarget 8 (Object {[ "name" := VStr "Ann" ]} None true))
    as (o' & Ho' & He & Hd & Hp); [reflexivity..|].
  exists o'. split_and!; [exact Ho' | exact He | exact Hd |].
  intros k Hk. rewrite (Hp k Hk). simpl. by apply lookup_singleton_ne.
Defined.

(** C10, as the claim has it, fails: with 0 as the target of a read-only
    proxy, a write to the forwarded key [name] raises the editability error
    and [set] is not called; and on an editable proxy the read that follows
    a write returns the value memoized by the write, not [get(0, 'name')]. *)
Lemma falsy_target_write_refused :
  let w := forwarding_world (VNum 0) false false in
  let w1 := snd (proxy_set 1 "name" (VStr "X")
                   (forwarding_world (VNum 0) false true)) in
  observableContent_of w 1 = VNum 0 ∧
  fst (proxy_set 1 "name" (VStr "X") w) = Throw (NotEditable 1 "name") ∧
  trace (snd (proxy_set 1 "name" (VStr "X") w)) = [] ∧
  fst (proxy_get 1 "name" w1) = Ok (VStr "X") ∧
  SC_get (heap w1) (VNum 0) "name" = VUndefined.
Proof. by split_and!. Qed.

Lemma falsy_target_is_forwarded_witness :
  let w := forwarding_world (VStr "") false true in
  observableContent_of (RT := js_runtime) w 1 = VStr "" ∧
  fst (proxy_get (RT := js_runtime) 1 "length" w) = Ok (VNum 0) ∧
  fst (proxy_set (RT := js_runtime) 1 "name" (VStr "X") w) = Ok (VStr "X") ∧
  trace (snd (proxy_set (RT := js_runtime) 1 "name" (VStr "X") w))
  = [SetCalled (VStr "") "name" (VStr "X")].
Proof.
  split; [reflexivity|].
  split.
  - destruct (falsy_target_is_forwarded (RT := js_runtime)
                (forwarding_world (VStr "") false true) 1 "length" VNull)
      as (Hread & _); [decided | reflexivity | reflexivity |].
    apply Hread. reflexivity.
  - destruct (falsy_target_is_forwarded (RT := js_runtime)
                (forwarding_world (VStr "") false true) 1 "name" (VStr "X"))
      as (_ & _ & Hwrite & _); [decided | reflexivity | reflexivity |].
    destruct Hwrite as (Hr & _ & Htr); [decided | discriminate |].
    split; [exact Hr | exact Htr].
Defined.

(** The scenarios of the specification, run on the sample stores. *)

Example resolver_on_samples :
  let resolve c b :=
    observableContent sample_heap (Proxy c (VBool b) (VBool true) [] ∅) in
  resolve (VRef 8) false = VRef 8 ∧
  resolve (VNum 0) false = VNum 0 ∧
  resolve (VRef 7) true = VNull ∧
  resolve (VRef 5) false = VNull ∧
  resolve (VRef 5) true = VRef 5 ∧
  resolve (VRef 9) false = VRef 8 ∧
  resolve (VRef 6) true = VRef 4.
Proof. by split_and!. Qed.

Example scenario_collapse :
  fst (proxy_get 1 "status" (sample_world (VRef 4) true true)) = Ok (VStr "ok").
Proof. reflexivity. Qed.

Example scenario_swap :
  let w1 := snd (proxy_get 1 "name" (sample_world (VRef 8) false true)) in
  let w2 := snd (proxy_set 1 "content" (VRef 10) w1) in
  fst (proxy_get 1 "name" (sample_world (VRef 8) false true)) = Ok (VStr "Ann") ∧
  fst (proxy_get 1 "name" w1) = Ok (VStr "Ann") ∧
  fst (proxy_get 1 "name" w2) = Ok (VStr "Bea").
Proof. by split_and!. Qed.

Example scenario_destroy :
  let w1 := snd (destroy 1 (forwarding_world (VRef 9) false true)) in
  destroy_calls (trace w1) = [8] ∧
  content (this w1 1) = VNull ∧
  destroy_calls (trace (snd (destroy 1 w1))) = [8].
Proof. by split_and!. Qed.

(** The first write to a key that has no accessor yet only installs the
    accessor and reads: the value is not written to the target. *)
Example first_write_only_reads :
  let w := sample_world (VRef 8) false true in
  fst (proxy_set 1 "name" (VStr "X") w) = Ok (VStr "Ann") ∧
  heap (snd (proxy_set 1 "name" (VStr "X") w)) = sample_heap.
Proof. by split_and!. Qed.

End Samples.

(** * The further properties on the sample stores *)

Section BehaviourSamples.
#[local] Existing Instance bare_runtime.

Local Ltac decided := apply (bool_decide_unpack _); vm_compute; exact I.

Lemma first_write_is_a_read_witness :
  let w := sample_world (VRef 8) false false in
  proxy_set 1 "name" (VStr "X") w = proxy_get 1 "name" w ∧
  heap (snd (proxy_set 1 "name" (VStr "X") w)) !! 8 = sample_heap !! 8.
Proof.
  destruct (first_write_is_a_read (sample_world (VRef 8) false false)
              1 "name" (VStr "X")) as (E & _ & Hh); [decided|decided|].
  split; [exact E|]. apply Hh. reflexivity.
Defined.

Lemma first_read_installs_witness :
  let w' := snd (proxy_get 1 "name" (sample_world (VRef 8) false true)) in
  accessors (this w' 1) = ["name"] ∧ _proxiedProperties w' = ["name"].
Proof.
  destruct (first_read_installs (sample_world (VRef 8) false true) 1 "name")
    as (Ha & Hr & _); [decided|decided|].
  split; [exact Ha|exact Hr].
Defined.

Lemma read_is_repeatable_witness :
  let w' := snd (proxy_get 1 "name" (sample_world (VRef 8) false true)) in
  proxy_get 1 "name" w' = (Ok (VStr "Ann"), w').
Proof.
  apply (read_is_repeatable (sample_world (VRef 8) false true) 1 "name"
           (VStr "Ann")); [decided|reflexivity].
Defined.

Lemma registry_only_grows_witness :
  ["name"] `prefix_of` _proxiedProperties (snd (proxy_get 1 "status" idle_world)) ∧
  NoDup (_proxiedProperties (snd (proxy_get 1 "status" idle_world))).
Proof.
  destruct (registry_only_grows idle_world 1 "status" VNull)
    as (Hp & Hn & _); [decided|].
  split; [exact Hp|exact Hn].
Defined.

Lemma single_mode_never_collection_witness :
  SC_isEnumerable sample_heap
    (observableContent sample_heap
       (Proxy (VRef 6) (VBool false) (VBool true) [] ∅)) = false.
Proof.
  apply (single_mode_never_collection sample_heap
           (Proxy (VRef 6) (VBool false) (VBool true) [] ∅)).
  reflexivity.
Defined.

Lemma single_item_is_the_target_witness :
  let w := snd (proxy_get 1 "name" (forwarding_world (VRef 5) false true)) in
  let w1 := snd (proxy_set 1 "content" (VRef 9) w) in
  observableContent_of w 1 = VNull ∧
  observableContent_of w1 1 = VRef 8 ∧
  fst (proxy_get 1 "name" w1) = Ok (VStr "Ann") ∧
  fst (proxy_set 1 "name" (VStr "Bea") w1) = Ok (VStr "Bea") ∧
  trace (snd (proxy_set 1 "name" (VStr "Bea") w1))
  = [Notified 1 "name"; Notified 1 "status";
     SetCalled (VRef 8) "name" (VStr "Bea")].
Proof.
  split; [reflexivity|].
  destruct (single_item_is_the_target
              (snd (proxy_get 1 "name" (forwarding_world (VRef 5) false true)))
              1 "name" (VStr "Bea") (VRef 9) (VRef 8))
    as (Ht & _ & Hr & Hw);
    [decided|reflexivity|reflexivity|reflexivity|reflexivity|reflexivity|].
  destruct Hw as (Hv & _ & Htr); [decided|discriminate|reflexivity|].
  split_and!; [exact Ht|exact Hr|exact Hv|exact Htr].
Defined.

Lemma many_items_are_no_content_witness :
  let w := snd (proxy_get 1 "name" (forwarding_world (VRef 9) false true)) in
  let w1 := snd (proxy_set 1 "content" (VRef 5) w) in
  observableContent_of w 1 = VRef 8 ∧
  observableContent_of w1 1 = VNull ∧
  fst (hasContent 1 w1) = Ok (VBool false) ∧
  fst (proxy_get 1 "status" w1) = Ok VUndefined ∧
  fst (proxy_set 1 "status" (VStr "done") w1) = Ok VUndefined ∧
  heap (snd (proxy_set 1 "status" (VStr "done") w1)) = sample_heap.
Proof.
  split; [reflexivity|].
  destruct (many_items_are_no_content
              (snd (proxy_get 1 "name" (forwarding_world (VRef 9) false true)))
              1 "status" (VStr "done") (VRef 5) 3)
    as (Ht & Hc & Hr & Hw & Hh & _);
    [decided|reflexivity|reflexivity|discriminate|reflexivity|].
  split_and!; [exact Ht|exact Hc|exact Hr|exact Hw|exact Hh].
Defined.

Lemma attribute_write_is_seen_witness :
  let w := snd (proxy_get 1 "name" (forwarding_world (VRef 8) false true)) in
  fst (proxy_get 1 "name" w) = Ok (VStr "Ann") ∧
  fst (proxy_get 1 "name" (snd (proxy_set 1 "content" (VRef 10) w)))
  = Ok (VStr "Bea").
Proof.
  split; [reflexivity|].
  destruct (attribute_write_is_seen
              (snd (proxy_get 1 "name" (forwarding_world (VRef 8) false true)))
              1 "name" "content" (VRef 10))
    as (_ & _ & _ & _ & Hr); [decided|by left|].
  apply Hr; reflexivity.
Defined.

Lemma read_after_destroy_witness :
  let w := snd (proxy_get 1 "name" (forwarding_world (VRef 8) false true)) in
  fst (proxy_get 1 "name" w) = Ok (VStr "Ann") ∧
  fst (proxy_get 1 "name" (snd (destroy 1 w))) = Ok VUndefined.
Proof.
  split; [reflexivity|].
  apply (read_after_destroy
           (snd (proxy_get 1 "name" (forwarding_world (VRef 8) false true)))
           1 "name").
  decided.
Defined.

Lemma write_fans_out_witness :
  let w := forwarding_world (VRef 5) true true in
  let w' := snd (proxy_set 1 "status" (VStr "done") w) in
  heap w' !! 3 = Some (plain {[ "status" := VStr "done" ]}) ∧
  heap w' !! 8 = sample_heap !! 8.
Proof.
  destruct (write_fans_out (forwarding_world (VRef 5) true true)
              1 "status" (VStr "done") [VRef 1; VRef 2; VRef 3])
    as (_ & Hin & Hout);
    [decided|decided|discriminate|reflexivity|reflexivity|].
  split.
  - etrans;
      [apply (Hin 3 (plain {[ "status" := VStr "fail" ]})); [decided|reflexivity]|].
    vm_compute. reflexivity.
  - apply Hout. decided.
Defined.

Lemma write_then_read_scalar_witness :
  ∃ w', proxy_set 1 "name" (VStr "Bea") (forwarding_world (VRef 8) false true)
        = (Ok (VStr "Bea"), w') ∧
        proxy_get 1 "name" w' = (Ok (VStr "Bea"), w') ∧
        fst (proxy_get 1 "name" (notifyPropertyChange 1 "name" w'))
        = Ok (VStr "Bea").
Proof.
  apply (write_then_read_scalar (forwarding_world (VRef 8) false true)
           1 "name" (VStr "Bea") 8 (Object {[ "name" := VStr "Ann" ]} None true));
    [decided|decided|discriminate|reflexivity|reflexivity|reflexivity
    |reflexivity|discriminate].
Defined.

Lemma write_then_read_collection_witness :
  ∃ w', proxy_set 1 "status" (VStr "done") (forwarding_world (VRef 5) true true)
        = (Ok (VStr "done"), w') ∧
        proxy_get 1 "status" w' = (Ok (VStr "done"), w') ∧
        fst (proxy_get 1 "status" (notifyPropertyChange 1 "status" w'))
        = Ok (VStr "done").
Proof.
  apply (write_then_read_collection (forwarding_world (VRef 5) true true)
           1 "status" (VStr "done") [VRef 1; VRef 2; VRef 3]);
    [decided|decided|discriminate|reflexivity|reflexivity|discriminate| |decided].
  apply Forall_forall.
  repeat constructor; eexists _, _; (split; [reflexivity|reflexivity]).
Defined.

Lemma reads_ignore_isEditable_witness :
  let w := forwarding_world (VRef 8) false true in
  fst (proxy_get 1 "name" (snd (proxy_set 1 "isEditable" (VBool false) w)))
  = fst (proxy_get 1 "name" w).
Proof.
  apply (reads_ignore_isEditable (forwarding_world (VRef 8) false true)
           1 "name" (VBool false)).
  decided.
Defined.

Lemma registered_preserved_witness :
  registered (snd (proxy_get 1 "name" empty_world)) ∧
  registered (snd (proxy_set 1 "name" (VStr "X") empty_world)).
Proof.
  destruct (registered_preserved 1 "name" (VStr "X") empty_world
              registered_empty_world) as (Hg & Hs & _).
  split; [exact Hg|exact Hs].
Defined.

End BehaviourSamples.
